(** * core-js-101, objects tasks: the CSS selector builder and the object helpers

    A shallow embedding of [src/06-objects-tasks.js].

    - [CSSSelector] instances are mutable JavaScript objects that are handed
      around by reference (every part method returns [this], [combine] reads
      two other selectors).  They live in an explicit store, the methods are
      computations in a store-and-exception monad, and a reference is an
      index into the store.
    - [Rectangle], [getJSON] and [fromJSON] are embedded over a small model
      of ordinary JavaScript objects: own properties in insertion order, a
      prototype link, data and accessor properties. *)

From stdpp Require Import base option list strings pretty sorting.
From Stdlib Require Import ZArith Lia Ascii.

Local Open Scope Z_scope.

#[local] Set Warnings "-register-all".

(** ** Exceptions and the store monad *)

(** [throw new Error(msg)] is the only exception the builder raises; its two
    failures are told apart by their message.  [TypeError] is what the
    runtime raises when an assignment to a property is refused. *)
Inductive exn : Type :=
| Error (message : string)
| TypeError
| SyntaxError.

#[global] Instance exn_eq_dec : EqDecision exn.
Proof. solve_decision. Defined.

Inductive outcome (A : Type) : Type :=
| Return (a : A)
| Throw (e : exn).
Arguments Return {A} a.
Arguments Throw {A} e.

(** The tags pushed on [this.structure]: the string literals ['element'],
    ['id'], ['class'], ['attr'], ['pseudoClass'], ['pseudoElement'], which
    are also the keys of [this.order]. *)
Inductive Kind : Type :=
| KElement | KId | KClass | KAttr | KPseudoClass | KPseudoElement.

#[global] Instance Kind_eq_dec : EqDecision Kind.
Proof. solve_decision. Defined.

Definition tag (k : Kind) : string :=
  match k with
  | KElement => "element"
  | KId => "id"
  | KClass => "class"
  | KAttr => "attr"
  | KPseudoClass => "pseudoClass"
  | KPseudoElement => "pseudoElement"
  end.

(** The mutable fields of a [CSSSelector] instance.  The two other fields,
    [order] and [uniqs], are set by the constructor and assigned nowhere
    else; they are the constants [CSSSelector.order] and
    [CSSSelector.uniqs] below. *)
Record Selector : Type := mkSelector {
  css : string;
  structure : list Kind
}.

#[global] Instance Selector_eq_dec : EqDecision Selector.
Proof. solve_decision. Defined.

(** A reference to an instance is its index in the store.  Instances are
    never freed, and [new] allocates at the end. *)
Abbreviation loc := nat (only parsing).
Abbreviation heap := (list Selector) (only parsing).

(** A computation runs on a store and ends with a store and either a value
    or a raised exception; the store survives a raise, as it does in
    JavaScript.  [None] is reserved for a reference that points at no
    instance, which no program can build. *)
Definition M (A : Type) : Type := heap → option (heap * outcome A).

#[global] Instance M_ret : MRet M := λ A a h, Some (h, Return a).

#[global] Instance M_bind : MBind M := λ A B f m h,
  match m h with
  | Some (h', Return a) => f a h'
  | Some (h', Throw e) => Some (h', Throw e)
  | None => None
  end.

Definition throw {A : Type} (e : exn) : M A := λ h, Some (h, Throw e).

(** [this.field] *)
Definition read {A : Type} (this : loc) (field : Selector → A) : M A :=
  λ h, match h !! this with
       | Some b => Some (h, Return (field b))
       | None => None
       end.

(** [this.field = ...] *)
Definition write (this : loc) (upd : Selector → Selector) : M unit :=
  λ h, match h !! this with
       | Some b => Some (<[this := upd b]> h, Return tt)
       | None => None
       end.

(** Allocation of a fresh instance. *)
Definition alloc (b : Selector) : M loc :=
  λ h, Some (h ++ [b], Return (length h)).

Definition set_css (s : string) (b : Selector) : Selector :=
  {| css := s; structure := structure b |}.

Definition set_structure (ks : list Kind) (b : Selector) : Selector :=
  {| css := css b; structure := ks |}.

(** ** Array and operator helpers used by [checkStructure] *)

(** [arr.includes(x)] *)
Definition includes (arr : list Kind) (x : Kind) : bool :=
  bool_decide (x ∈ arr).

(** [arr.slice(-1)]: the elements from index [max (length - 1) 0] on. *)
Definition slice_last (arr : list Kind) : list Kind :=
  drop (length arr - 1) arr.

(** [a < b] on numbers, where either side may be [undefined]: a comparison
    with [undefined] is [false]. *)
Definition js_lt (a b : option Z) : bool :=
  match a, b with
  | Some x, Some y => x <? y
  | _, _ => false
  end.

(** ** class CSSSelector *)

Module CSSSelector.

(** [this.order] *)
Definition order (k : Kind) : Z :=
  match k with
  | KElement => 1
  | KId => 2
  | KClass => 3
  | KAttr => 4
  | KPseudoClass => 5
  | KPseudoElement => 6
  end.

(** [this.uniqs] *)
Definition uniqs : list Kind := [KElement; KId; KPseudoElement].

(** [this.order[value]] for a tag. *)
Definition order_of (value : Kind) : option Z := Some (order value).

(** [this.order[arr]] for an array used as a property key: the key is the
    array's string form, which is a key of [order] only when the array
    holds exactly one tag. *)
Definition order_at (key : list Kind) : option Z :=
  match key with
  | [k] => Some (order k)
  | _ => None
  end.

Definition msgOrder : string :=
  "Selector parts should be arranged in the following order: element, id, class, attribute, pseudo-class, pseudo-element".

Definition msgUniqs : string :=
  "Element, id and pseudo-element should not occur more then one time inside the selector".

(** [new CSSSelector()] *)
Definition constructor : M loc :=
  alloc {| css := EmptyString; structure := [] |}.

Definition checkStructure (value : Kind) (this : loc) : M unit :=
  s ← read this structure;
  if includes uniqs value && includes s value
  then throw (Error msgUniqs)
  else
    if bool_decide (0 < length s)%nat
       && js_lt (order_of value) (order_at (slice_last s))
    then throw (Error msgOrder)
    else write this (λ b, set_structure (structure b ++ [value]) b).

(** [this.css += text] *)
Definition append_css (text : string) (this : loc) : M unit :=
  c ← read this css;
  write this (set_css (c +:+ text)).

Definition element (value : string) (this : loc) : M loc :=
  checkStructure KElement this;;
  append_css value this;;
  mret this.

Definition id (value : string) (this : loc) : M loc :=
  checkStructure KId this;;
  append_css ("#" +:+ value) this;;
  mret this.

Definition class (value : string) (this : loc) : M loc :=
  checkStructure KClass this;;
  append_css ("." +:+ value) this;;
  mret this.

Definition attr (value : string) (this : loc) : M loc :=
  checkStructure KAttr this;;
  append_css ("[" +:+ value +:+ "]") this;;
  mret this.

Definition pseudoClass (value : string) (this : loc) : M loc :=
  checkStructure KPseudoClass this;;
  append_css (":" +:+ value) this;;
  mret this.

Definition pseudoElement (value : string) (this : loc) : M loc :=
  checkStructure KPseudoElement this;;
  append_css ("::" +:+ value) this;;
  mret this.

Definition stringify (this : loc) : M string :=
  read this css.

(** [this.css += `${selector1.stringify()} ${combinator} ${selector2.stringify()}`]:
    the old value of [this.css] is read first, then the template is
    evaluated left to right, then the field is assigned. *)
Definition combine (selector1 : loc) (combinator : string) (selector2 : loc)
    (this : loc) : M loc :=
  c ← read this css;
  s1 ← stringify selector1;
  s2 ← stringify selector2;
  write this (set_css (c +:+ (s1 +:+ " " +:+ combinator +:+ " " +:+ s2)));;
  mret this.

End CSSSelector.

(** ** const cssSelectorBuilder *)

Module cssSelectorBuilder.

Definition element (value : string) : M loc :=
  CSSSelector.constructor ≫= CSSSelector.element value.

Definition id (value : string) : M loc :=
  CSSSelector.constructor ≫= CSSSelector.id value.

Definition class (value : string) : M loc :=
  CSSSelector.constructor ≫= CSSSelector.class value.

Definition attr (value : string) : M loc :=
  CSSSelector.constructor ≫= CSSSelector.attr value.

Definition pseudoClass (value : string) : M loc :=
  CSSSelector.constructor ≫= CSSSelector.pseudoClass value.

Definition pseudoElement (value : string) : M loc :=
  CSSSelector.constructor ≫= CSSSelector.pseudoElement value.

Definition combine (selector1 : loc) (combinator : string) (selector2 : loc)
    : M loc :=
  CSSSelector.constructor ≫= CSSSelector.combine selector1 combinator selector2.

Definition stringify : M string :=
  CSSSelector.constructor ≫= CSSSelector.stringify.

End cssSelectorBuilder.

(** ** Chains of part-method calls *)

(** One call of a part method: which method, and its argument. *)
Definition call : Type := Kind * string.

Definition invoke (c : call) (this : loc) : M loc :=
  match c.1 with
  | KElement => CSSSelector.element c.2 this
  | KId => CSSSelector.id c.2 this
  | KClass => CSSSelector.class c.2 this
  | KAttr => CSSSelector.attr c.2 this
  | KPseudoClass => CSSSelector.pseudoClass c.2 this
  | KPseudoElement => CSSSelector.pseudoElement c.2 this
  end.

(** [this.m1(v1).m2(v2)...]: each call is made on what the previous one
    returned. *)
Fixpoint chain (cs : list call) (this : loc) : M loc :=
  match cs with
  | [] => mret this
  | c :: cs' => invoke c this ≫= chain cs'
  end.

(** The literal rendering of a part, as the specification lists it. *)
Definition rendering (c : call) : string :=
  match c.1 with
  | KElement => c.2
  | KId => "#" +:+ c.2
  | KClass => "." +:+ c.2
  | KAttr => "[" +:+ c.2 +:+ "]"
  | KPseudoClass => ":" +:+ c.2
  | KPseudoElement => "::" +:+ c.2
  end.

Definition renderings (cs : list call) : string :=
  foldr String.append EmptyString (rendering <$> cs).

(** ** The ordering and uniqueness conditions of the specification *)

(** The rank of a kind: its place in the required order
    element, id, class, attribute, pseudo-class, pseudo-element. *)
Definition rank (k : Kind) : nat :=
  match k with
  | KElement => 0
  | KId => 1
  | KClass => 2
  | KAttr => 3
  | KPseudoClass => 4
  | KPseudoElement => 5
  end.

(** The kinds that a selector holds at most once. *)
Definition singleton_kinds : list Kind := [KElement; KId; KPseudoElement].

Definition rank_le (a b : Kind) : Prop := (rank a ≤ rank b)%nat.

#[global] Instance rank_le_dec a b : Decision (rank_le a b).
Proof. unfold rank_le. apply _. Defined.

(** Weakly increasing rank: every part is ranked at most as high as every
    later one. *)
Definition weakly_increasing (ks : list Kind) : Prop :=
  StronglySorted rank_le ks.

Definition occurrences (k : Kind) (ks : list Kind) : nat :=
  length (filter (λ x, x = k) ks).

(** Each of [element], [id], [pseudoElement] occurs at most once. *)
Definition singletons_once (ks : list Kind) : Prop :=
  Forall (λ k, (occurrences k ks ≤ 1)%nat) singleton_kinds.

Definition well_formed (b : Selector) : Prop :=
  weakly_increasing (structure b) ∧ singletons_once (structure b).

Definition heap_inv (h : heap) : Prop := Forall well_formed h.

(** What [checkStructure] decides on a given [structure], as a function:
    the exception it raises, if any. *)
Definition verdict (value : Kind) (s : list Kind) : option exn :=
  if decide (value ∈ CSSSelector.uniqs ∧ value ∈ s)
  then Some (Error CSSSelector.msgUniqs)
  else match last s with
       | Some k =>
           if decide (CSSSelector.order value < CSSSelector.order k)
           then Some (Error CSSSelector.msgOrder)
           else None
       | None => None
       end.

(** ** Programs over the builder *)

(** The operations a client can perform.  A raised exception can be caught
    by the client, which then goes on with the same store. *)
Inductive op : Type :=
| New
| Part (c : call) (this : loc)
| Combine (selector1 : loc) (combinator : string) (selector2 : loc) (this : loc)
| Stringify (this : loc).

Definition exec (o : op) : M unit :=
  match o with
  | New => CSSSelector.constructor;; mret tt
  | Part c this => invoke c this;; mret tt
  | Combine s1 c s2 this => CSSSelector.combine s1 c s2 this;; mret tt
  | Stringify this => CSSSelector.stringify this;; mret tt
  end.

Fixpoint run (os : list op) (h : heap) : option heap :=
  match os with
  | [] => Some h
  | o :: os' =>
      match exec o h with
      | Some (h', _) => run os' h'
      | None => None
      end
  end.

(** The stores a program can reach from the empty one. *)
Definition reachable (h : heap) : Prop := ∃ os, run os [] = Some h.

(** ** function Rectangle *)

Section Rectangle.

(** JavaScript numbers and their [*] operator. *)
Context {number : Type} (times : number → number → number).

(** The object literal [{ width, height, getArea() {...} }]: two data
    fields, and a method that reads them through [this]. *)
Record RectangleObject : Type := {
  width : number;
  height : number
}.

Definition Rectangle (width height : number) : RectangleObject :=
  {| width := width; height := height |}.

Definition getArea (this : RectangleObject) : number :=
  times (width this) (height this).

(** [r.width = w] and [r.height = h] *)
Definition assign_width (w : number) (r : RectangleObject) : RectangleObject :=
  {| width := w; height := height r |}.

Definition assign_height (h : number) (r : RectangleObject) : RectangleObject :=
  {| width := width r; height := h |}.

End Rectangle.

Arguments RectangleObject number : clear implicits.

(** ** Ordinary objects, [getJSON] and [fromJSON] *)

Section Objects.

(** JavaScript numbers and function objects are kept abstract. *)
Context {number function : Type}.

(** Plain data: what [JSON.parse] returns.  The members of a [JObject] are
    its own properties in enumeration order. *)
Inductive json : Type :=
| JNull
| JBool (b : bool)
| JNumber (n : number)
| JString (s : string)
| JArray (elements : list json)
| JObject (members : list (string * json)).

Inductive value : Type :=
| VData (j : json)
| VFunction (f : function).

(** A property as far as property assignment inspects it. *)
Inductive property : Type :=
| DataProperty (v : value) (writable : bool)
| AccessorProperty (getter setter : option function).

(** An object: its own properties and its prototype ([None] is [null]). *)
Inductive object : Type :=
| Obj (own : list (string * property)) (proto : option object).

Definition own_properties (o : object) : list (string * property) :=
  match o with Obj own _ => own end.

Definition prototype_of (o : object) : option object :=
  match o with Obj _ proto => proto end.

Fixpoint assoc {A : Type} (key : string) (l : list (string * A)) : option A :=
  match l with
  | [] => None
  | (k, a) :: l' => if decide (k = key) then Some a else assoc key l'
  end.

(** [O.[[GetOwnProperty]](key)] *)
Definition own_property (o : object) (key : string) : option property :=
  assoc key (own_properties o).

(** The property [key] resolves to on [o]: its own one, or else the first
    one along the prototype chain. *)
Fixpoint get_property (o : object) (key : string) : option property :=
  match o with
  | Obj own proto =>
      match assoc key own with
      | Some p => Some p
      | None =>
          match proto with
          | Some parent => get_property parent key
          | None => None
          end
      end
  end.

(** Defining an own property: an existing one keeps its place, a new one
    goes last. *)
Fixpoint define {A : Type} (key : string) (a : A) (l : list (string * A))
    : list (string * A) :=
  match l with
  | [] => [(key, a)]
  | (k, b) :: l' =>
      if decide (k = key) then (k, a) :: l' else (k, b) :: define key a l'
  end.

Definition define_own_property (o : object) (key : string) (p : property)
    : object :=
  match o with Obj own proto => Obj (define key p own) proto end.

(** Calling a setter with [this] bound to the receiver: the receiver after
    the call, or the exception the setter raised. *)
Variable call_setter : function → object → value → outcome object.

(** [Set(receiver, key, v, true)], the assignment [receiver[key] = v] in
    strict mode: the property the key resolves to decides.  A setter is
    called, a missing setter or a read-only property refuses the
    assignment, and otherwise the receiver gets or updates an own data
    property. *)
Definition set_property (receiver : object) (key : string) (v : value)
    : outcome object :=
  match get_property receiver key with
  | Some (AccessorProperty _ (Some f)) => call_setter f receiver v
  | Some (AccessorProperty _ None) => Throw TypeError
  | Some (DataProperty _ false) => Throw TypeError
  | Some (DataProperty _ true) | None =>
      match own_property receiver key with
      | Some (AccessorProperty _ _) => Throw TypeError
      | Some (DataProperty _ false) => Throw TypeError
      | Some (DataProperty _ true) | None =>
          Return (define_own_property receiver key (DataProperty v true))
      end
  end.

(** [Object.create(proto)] *)
Definition Object_create (proto : option object) : object :=
  Obj [] proto.

(** A string index, written in decimal. *)
Definition index_key (i : nat) : string := pretty i.

(** The own enumerable string-keyed properties of a plain value: the
    members of an object, the elements of an array, the characters of a
    string; a number, a boolean and [null] have none. *)
Definition own_enumerable (source : json) : list (string * json) :=
  match source with
  | JObject members => members
  | JArray elements => imap (λ i e, (index_key i, e)) elements
  | JString s =>
      imap (λ i c, (index_key i, JString (String c EmptyString)))
           (String.list_ascii_of_string s)
  | JNull | JBool _ | JNumber _ => []
  end.

Fixpoint assign_all (target : object) (ps : list (string * json))
    : outcome object :=
  match ps with
  | [] => Return target
  | (k, j) :: ps' =>
      match set_property target k (VData j) with
      | Return target' => assign_all target' ps'
      | Throw e => Throw e
      end
  end.

(** [Object.assign(target, source)] *)
Definition Object_assign (target : object) (source : json) : outcome object :=
  assign_all target (own_enumerable source).

(** [JSON.stringify] and [JSON.parse] are the runtime's.  [getJSON] is
    embedded on plain data, where [JSON.stringify] returns a string. *)
Variable JSON_stringify : json → string.
Variable JSON_parse : string → outcome json.

Definition getJSON (obj : json) : string :=
  JSON_stringify obj.

Definition fromJSON (proto : option object) (text : string) : outcome object :=
  let target := Object_create proto in
  match JSON_parse text with
  | Return parsed => Object_assign target parsed
  | Throw e => Throw e
  end.

(** The own fields an object gets when plain members are copied on it. *)
Definition data_fields (members : list (string * json))
    : list (string * property) :=
  (λ m, (m.1, DataProperty (VData m.2) true)) <$> members.

(** No member of [proto], own or inherited, intercepts an assignment to
    [key]: the key resolves to nothing or to a writable data property. *)
Definition assignable (proto : object) (key : string) : Prop :=
  match get_property proto key with
  | None | Some (DataProperty _ true) => True
  | _ => False
  end.

End Objects.

Arguments json number : clear implicits.
Arguments value number function : clear implicits.
Arguments property number function : clear implicits.
Arguments object number function : clear implicits.

(** ** A runtime for the examples *)

(** The theorems about [getJSON] and [fromJSON] hold for every runtime.  The
    examples run on this one: numbers are integers, and [JSON_stringify] and
    [JSON_parse] are a serializer and a parser for plain data without white
    space, on strings that need no escape. *)
Module Runtime.

Definition dquote : ascii := "034"%char.

Definition quoted (s : string) : string :=
  String dquote (s +:+ String dquote EmptyString).

Fixpoint JSON_stringify (j : json Z) : string :=
  match j with
  | JNull => "null"
  | JBool true => "true"
  | JBool false => "false"
  | JNumber n => pretty n
  | JString s => quoted s
  | JArray elements =>
      "[" +:+ String.concat "," (JSON_stringify <$> elements) +:+ "]"
  | JObject members =>
      "{" +:+ String.concat ","
                ((λ m, quoted m.1 +:+ ":" +:+ JSON_stringify m.2) <$> members)
          +:+ "}"
  end.

Abbreviation parser A := (list ascii → option (A * list ascii)) (only parsing).

Definition is_digit (c : ascii) : bool :=
  (48 <=? nat_of_ascii c)%nat && (nat_of_ascii c <=? 57)%nat.

Fixpoint digits (acc : Z) (s : list ascii) : Z * list ascii :=
  match s with
  | c :: rest =>
      if is_digit c
      then digits (10 * acc + (Z.of_nat (nat_of_ascii c) - 48)) rest
      else (acc, s)
  | [] => (acc, s)
  end.

Fixpoint until_quote (s : list ascii) : option (string * list ascii) :=
  match s with
  | [] => None
  | c :: rest =>
      if decide (c = dquote) then Some (EmptyString, rest)
      else '(str, rest') ← until_quote rest; Some (String c str, rest')
  end.

(** Items separated by commas, up to the closing character. *)
Fixpoint sequence {A : Type} (fuel : nat) (item : parser A) (close : ascii)
    (s : list ascii) : option (list A * list ascii) :=
  match fuel with
  | O => None
  | S fuel' =>
      '(a, rest) ← item s;
      match rest with
      | c :: rest' =>
          if decide (c = close) then Some ([a], rest')
          else if decide (c = ","%char)
               then '(l, rest'') ← sequence fuel' item close rest';
                    Some (a :: l, rest'')
               else None
      | [] => None
      end
  end.

Definition member (item : parser (json Z)) : parser (string * json Z) :=
  λ s, match s with
       | c :: rest =>
           if decide (c = dquote)
           then '(key, rest') ← until_quote rest;
                match rest' with
                | ":"%char :: rest'' =>
                    '(j, rest''') ← item rest''; Some ((key, j), rest''')
                | _ => None
                end
           else None
       | [] => None
       end.

Fixpoint parse_value (fuel : nat) (s : list ascii)
    : option (json Z * list ascii) :=
  match fuel with
  | O => None
  | S fuel' =>
      match s with
      | "n" :: "u" :: "l" :: "l" :: rest => Some (JNull, rest)
      | "t" :: "r" :: "u" :: "e" :: rest => Some (JBool true, rest)
      | "f" :: "a" :: "l" :: "s" :: "e" :: rest => Some (JBool false, rest)
      | "[" :: "]" :: rest => Some (JArray [], rest)
      | "[" :: rest =>
          '(l, rest') ← sequence fuel' (parse_value fuel') "]" rest;
          Some (JArray l, rest')
      | "{" :: "}" :: rest => Some (JObject [], rest)
      | "{" :: rest =>
          '(l, rest') ← sequence fuel' (member (parse_value fuel')) "}" rest;
          Some (JObject l, rest')
      | "-" :: c :: rest =>
          if is_digit c
          then let '(n, rest') := digits 0 (c :: rest) in
               Some (JNumber (- n), rest')
          else None
      | c :: rest =>
          if decide (c = dquote)
          then '(str, rest') ← until_quote rest; Some (JString str, rest')
          else if is_digit c
               then let '(n, rest') := digits 0 s in Some (JNumber n, rest')
               else None
      | [] => None
      end%char
  end.

Definition JSON_parse (text : string) : outcome (json Z) :=
  match parse_value (S (String.length text))
                    (String.list_ascii_of_string text) with
  | Some (j, []) => Return j
  | _ => Throw SyntaxError
  end.

(** The function objects of the examples. *)
Inductive function : Type :=
| getCircumference
| get_radius
| set_radius.

(** [set radius(v) { this._radius = v; }]; no object of the examples has
    a member [_radius] but the own data property this assignment makes.
    The other functions are not setters. *)
Definition call_setter (f : function) (receiver : object Z function)
    (v : value Z function) : outcome (object Z function) :=
  match f with
  | set_radius =>
      Return (define_own_property receiver "_radius" (DataProperty v true))
  | _ => Return receiver
  end.

(** [Circle.prototype] of a constructor [function Circle(radius)
    { this.radius = radius; }] with a method [getCircumference].
    [Object.prototype], which sits above it, has no member named like a
    field of the examples and is left out. *)
Definition Circle_prototype : object Z function :=
  Obj [("getCircumference", DataProperty (VFunction getCircumference) true)]
      None.

(** The prototype of a class that keeps the radius behind an accessor:
    [class Wheel { get radius() {...} set radius(v) {...}
    getCircumference() {...} }]. *)
Definition Wheel_prototype : object Z function :=
  Obj [("radius", AccessorProperty (Some get_radius) (Some set_radius));
       ("getCircumference", DataProperty (VFunction getCircumference) true)]
      None.

End Runtime.

(** ** Notions used by the further properties *)

(** The instance an operation may change: the one a part method or
    [combine] is called on. *)
Definition receiver (o : op) : option loc :=
  match o with
  | Part _ this => Some this
  | Combine _ _ _ this => Some this
  | New | Stringify _ => None
  end.

(** [b'] is [b] with text appended and kinds recorded after its own. *)
Definition grows (b b' : Selector) : Prop :=
  (∃ text, css b' = css b +:+ text)
  ∧ (∃ ks, structure b' = structure b ++ ks).

Section IndexedFields.

Context {number function : Type}.

(** The own fields an object gets from the elements of an array: one per
    index, named by the index. *)
Definition indexed_fields (items : list (json number))
    : list (string * property number function) :=
  imap (λ i e, (index_key i, DataProperty (VData e) true)) items.

(** [key] resolves on [proto] to a member that refuses assignment: a
    read-only data property or an accessor without a setter. *)
Definition refuses_assignment (proto : object number function) (key : string)
    : Prop :=
  match get_property proto key with
  | Some (DataProperty _ false) | Some (AccessorProperty _ None) => True
  | _ => False
  end.

End IndexedFields.

(** Prototypes for the examples of the further properties. *)
Module Fixtures.

(** A prototype whose [radius] is a read-only data property, as
    [Object.defineProperty(proto, 'radius', { value: 1, writable: false })]
    makes it. *)
Definition ReadOnly_prototype : object Z Runtime.function :=
  Obj [("getCircumference",
        DataProperty (VFunction Runtime.getCircumference) true);
       ("radius", DataProperty (VData (JNumber 1)) false)]
      None.

End Fixtures.

(** * Properties of the selector builder *)

(** ** The primitives of the store monad *)

Lemma bind_Return {A B : Type} (m : M A) (f : A → M B) h h' a :
  m h = Some (h', Return a) → (m ≫= f) h = f a h'.
Proof. intros Hm. unfold mbind, M_bind. by rewrite Hm. Qed.

Lemma bind_Throw {A B : Type} (m : M A) (f : A → M B) h h' e :
  m h = Some (h', Throw e) → (m ≫= f) h = Some (h', Throw e).
Proof. intros Hm. unfold mbind, M_bind. by rewrite Hm. Qed.

(** [bind_with H] steps over the first computation of a sequence, whose
    run [H] describes. *)
Tactic Notation "bind_with" uconstr(H) :=
  first [ rewrite (bind_Return _ _ _ _ _ H)
        | rewrite (bind_Throw _ _ _ _ _ H) ].

Lemma read_Some {A : Type} (field : Selector → A) h this b :
  h !! this = Some b → read this field h = Some (h, Return (field b)).
Proof. intros Hb. unfold read. by rewrite Hb. Qed.

Lemma write_Some upd h this b :
  h !! this = Some b → write this upd h = Some (<[this := upd b]> h, Return tt).
Proof. intros Hb. unfold write. by rewrite Hb. Qed.

Lemma lookup_updated (h : heap) this b b' :
  h !! this = Some b → <[this := b']> h !! this = Some b'.
Proof. intros Hb. apply list_lookup_insert_eq. by eapply lookup_lt_Some. Qed.

Lemma update_last (h : heap) b b' :
  <[length h := b']> (h ++ [b]) = h ++ [b'].
Proof.
  replace (length h) with (length h + 0)%nat by lia. by rewrite insert_app_r.
Qed.

Lemma constructor_spec (h : heap) :
  CSSSelector.constructor h =
    Some (h ++ [ {| css := EmptyString; structure := [] |} ], Return (length h)).
Proof. done. Qed.

(** ** What [checkStructure] decides *)

Lemma slice_last_last (s : list Kind) :
  slice_last s = match last s with Some k => [k] | None => [] end.
Proof.
  unfold slice_last. destruct s as [|k s _] using rev_ind; [done|].
  rewrite last_snoc, length_app. simpl.
  replace (length s + 1 - 1)%nat with (length s) by lia.
  by rewrite drop_app_length.
Qed.

Lemma order_check_last (value : Kind) (s : list Kind) :
  bool_decide (0 < length s)%nat
    && js_lt (CSSSelector.order_of value) (CSSSelector.order_at (slice_last s))
  = match last s with
    | Some k => bool_decide (CSSSelector.order value < CSSSelector.order k)
    | None => false
    end.
Proof.
  rewrite slice_last_last.
  destruct s as [|k s _] using rev_ind; [done|].
  rewrite last_snoc, length_app. simpl.
  rewrite bool_decide_true by lia. simpl.
  destruct (Z.ltb_spec (CSSSelector.order value) (CSSSelector.order k)).
  - by rewrite bool_decide_true.
  - rewrite bool_decide_false; [done | lia].
Qed.

Lemma checkStructure_spec (value : Kind) h this b :
  h !! this = Some b →
  CSSSelector.checkStructure value this h =
    match verdict value (structure b) with
    | Some e => Some (h, Throw e)
    | None =>
        Some (<[this := set_structure (structure b ++ [value]) b]> h, Return tt)
    end.
Proof.
  intros Hb. unfold CSSSelector.checkStructure.
  bind_with (read_Some structure _ _ _ Hb).
  unfold verdict, includes. rewrite order_check_last.
  destruct (decide (value ∈ CSSSelector.uniqs ∧ value ∈ structure b)) as [[Hu Hs]|Hn].
  - by rewrite !bool_decide_true.
  - replace (bool_decide (value ∈ CSSSelector.uniqs) && bool_decide (value ∈ structure b))
      with false.
    2:{ symmetry. apply andb_false_iff.
        destruct (decide (value ∈ CSSSelector.uniqs)) as [Hu|Hu].
        - right. apply bool_decide_false. tauto.
        - left. by apply bool_decide_false. }
    destruct (last (structure b)) as [k|].
    + destruct (decide (CSSSelector.order value < CSSSelector.order k)).
      * by rewrite bool_decide_true.
      * rewrite bool_decide_false by done. by rewrite (write_Some _ _ _ _ Hb).
    + by rewrite (write_Some _ _ _ _ Hb).
Qed.

Lemma append_css_spec (text : string) h this b :
  h !! this = Some b →
  CSSSelector.append_css text this h =
    Some (<[this := set_css (css b +:+ text) b]> h, Return tt).
Proof.
  intros Hb. unfold CSSSelector.append_css.
  bind_with (read_Some css _ _ _ Hb).
  by apply write_Some.
Qed.

(** A part method: it raises what [checkStructure] raises and leaves the
    store alone, or it records the kind, appends the rendering and returns
    [this]. *)
Lemma invoke_spec (c : call) h this b :
  h !! this = Some b →
  invoke c this h =
    match verdict c.1 (structure b) with
    | Some e => Some (h, Throw e)
    | None =>
        Some (<[this := {| css := css b +:+ rendering c;
                           structure := structure b ++ [c.1] |}]> h,
              Return this)
    end.
Proof.
  intros Hb.
  assert (∀ text,
    (CSSSelector.checkStructure c.1 this;;
     CSSSelector.append_css text this;; mret this) h =
    match verdict c.1 (structure b) with
    | Some e => Some (h, Throw e)
    | None =>
        Some (<[this := {| css := css b +:+ text;
                           structure := structure b ++ [c.1] |}]> h,
              Return this)
    end) as Hgen.
  { intros text. pose proof (checkStructure_spec c.1 h this b Hb) as Hc.
    destruct (verdict c.1 (structure b)) as [e|].
    - by bind_with Hc.
    - bind_with Hc.
      pose proof (lookup_updated h this b
                    (set_structure (structure b ++ [c.1]) b) Hb) as Hb'.
      bind_with (append_css_spec text _ _ _ Hb').
      unfold mret, M_ret. by rewrite list_insert_insert_eq. }
  destruct c as [k v]. unfold invoke, rendering.
  destruct k; simpl in *; apply Hgen.
Qed.

(** ** Strings *)

Lemma string_app_cons c (s t : string) : String c s +:+ t = String c (s +:+ t).
Proof. reflexivity. Qed.

Lemma string_app_nil_r (s : string) : s +:+ EmptyString = s.
Proof. induction s as [|c s IH]; [done|]. by rewrite string_app_cons, IH. Qed.

Lemma string_app_assoc (s1 s2 s3 : string) :
  (s1 +:+ s2) +:+ s3 = s1 +:+ (s2 +:+ s3).
Proof. induction s1 as [|c s1 IH]; [done|]. by rewrite !string_app_cons, IH. Qed.

(** ** The constants of the constructor and the specification's ranks *)

Lemma order_rank (k : Kind) : CSSSelector.order k = Z.of_nat (rank k) + 1.
Proof. by destruct k. Qed.

Lemma uniqs_singleton_kinds : CSSSelector.uniqs = singleton_kinds.
Proof. done. Qed.

Lemma tag_inj : Inj (=) (=) tag.
Proof. intros k1 k2 Htag. destruct k1, k2; (done || discriminate). Qed.

(** ** Valid sequences pass [checkStructure] *)

Lemma occurrences_app k (s1 s2 : list Kind) :
  occurrences k (s1 ++ s2) = (occurrences k s1 + occurrences k s2)%nat.
Proof. unfold occurrences. by rewrite filter_app, length_app. Qed.

Lemma occurrences_elem_of k (s : list Kind) :
  k ∈ s ↔ (0 < occurrences k s)%nat.
Proof.
  unfold occurrences. split.
  - intros Hk.
    assert (k ∈ filter (λ x, x = k) s) as Hf by (by apply list_elem_of_filter).
    destruct (filter (λ x, x = k) s); [by apply elem_of_nil in Hf | simpl; lia].
  - intros Hlen.
    destruct (filter (λ x, x = k) s) as [|x l] eqn:Hf; [simpl in Hlen; lia|].
    assert (x ∈ filter (λ x, x = k) s) as Hx by (rewrite Hf; left).
    apply list_elem_of_filter in Hx as [-> Hx]. done.
Qed.

Lemma occurrences_self k : occurrences k [k] = 1%nat.
Proof. unfold occurrences. by rewrite filter_cons_True. Qed.

Lemma singletons_once_lookup k (s : list Kind) :
  singletons_once s → k ∈ singleton_kinds → (occurrences k s ≤ 1)%nat.
Proof.
  unfold singletons_once. rewrite Forall_forall. intros Hs Hk. by apply Hs.
Qed.

Lemma verdict_valid k (s rest : list Kind) :
  weakly_increasing (s ++ k :: rest) →
  singletons_once (s ++ k :: rest) →
  verdict k s = None.
Proof.
  intros Hsorted Honce. unfold verdict.
  destruct (decide (k ∈ CSSSelector.uniqs ∧ k ∈ s)) as [[Hu Hs]|_].
  - pose proof (singletons_once_lookup k _ Honce Hu) as Hle.
    rewrite occurrences_app in Hle.
    change (k :: rest) with ([k] ++ rest) in Hle.
    rewrite occurrences_app, occurrences_self in Hle.
    apply occurrences_elem_of in Hs. lia.
  - destruct (last s) as [k'|] eqn:Hlast; [|done].
    assert (rank_le k' k) as Hle.
    { eapply (StronglySorted_app_1_elem_of rank_le s (k :: rest));
        [done | | left].
      apply last_Some in Hlast as [l' ->].
      apply elem_of_app. right. left. }
    unfold rank_le in Hle.
    destruct (decide (CSSSelector.order k < CSSSelector.order k'));
      [rewrite !order_rank in *; lia | done].
Qed.

Lemma chain_valid (cs : list call) :
  ∀ h this b,
    h !! this = Some b →
    weakly_increasing (structure b ++ cs.*1) →
    singletons_once (structure b ++ cs.*1) →
    chain cs this h =
      Some (<[this := {| css := css b +:+ renderings cs;
                         structure := structure b ++ cs.*1 |}]> h,
            Return this).
Proof.
  induction cs as [|c cs IH]; intros h this b Hb Hsorted Honce; simpl.
  - unfold mret, M_ret, renderings. simpl.
    rewrite string_app_nil_r, app_nil_r.
    rewrite list_insert_id; [done | by destruct b].
  - simpl in Hsorted, Honce.
    pose proof (invoke_spec c h this b Hb) as Hi.
    rewrite (verdict_valid _ _ _ Hsorted Honce) in Hi.
    bind_with Hi.
    erewrite IH; [| by eapply lookup_updated | simpl; by rewrite <- app_assoc ..].
    simpl. rewrite list_insert_insert_eq.
    unfold renderings. simpl.
    by rewrite string_app_assoc, <- app_assoc.
Qed.

(** C1.  On a fresh builder, every sequence of part-method calls whose kinds
    are weakly increasing in rank and in which [element], [id] and
    [pseudoElement] occur at most once runs without raising, and
    [stringify()] then returns the renderings of the parts, concatenated in
    call order.  The store gains the one new instance, which records the
    kinds in call order, and nothing else changes. *)
Theorem valid_chain_stringify (cs : list call) (h : heap) :
  weakly_increasing cs.*1 →
  singletons_once cs.*1 →
  (this ← CSSSelector.constructor;
   this' ← chain cs this;
   CSSSelector.stringify this') h =
    Some (h ++ [ {| css := renderings cs; structure := cs.*1 |} ],
          Return (renderings cs)).
Proof.
  intros Hsorted Honce.
  bind_with (constructor_spec h).
  assert ((h ++ [ {| css := EmptyString; structure := [] |} ]) !! length h
          = Some {| css := EmptyString; structure := [] |}) as Hb
    by (by apply list_lookup_middle).
  pose proof (chain_valid cs _ _ _ Hb Hsorted Honce) as Hc. simpl in Hc.
  change (EmptyString +:+ renderings cs) with (renderings cs) in Hc.
  bind_with Hc.
  rewrite update_last.
  unfold CSSSelector.stringify.
  by rewrite (read_Some css _ (length h) _ (list_lookup_middle _ _ _ _ eq_refl)).
Qed.

Lemma valid_chain_stringify_witness :
  (this ← CSSSelector.constructor;
   this' ← chain [(KElement, "a"); (KId, "main"); (KClass, "x"); (KClass, "y");
                  (KAttr, "href"); (KPseudoClass, "focus");
                  (KPseudoElement, "after")] this;
   CSSSelector.stringify this') [] =
    Some ([ {| css := "a#main.x.y[href]:focus::after";
               structure := [KElement; KId; KClass; KClass; KAttr;
                             KPseudoClass; KPseudoElement] |} ],
          Return "a#main.x.y[href]:focus::after").
Proof.
  apply (valid_chain_stringify
           [(KElement, "a"); (KId, "main"); (KClass, "x"); (KClass, "y");
            (KAttr, "href"); (KPseudoClass, "focus");
            (KPseudoElement, "after")] []).
  - unfold weakly_increasing. simpl.
    repeat (constructor; [| repeat constructor; unfold rank_le; simpl; lia]).
    constructor.
  - unfold singletons_once. repeat constructor.
Defined.

(** ** The order check *)

(** C2, as stated, fails: [element('a').id('b')] has a non-empty
    [structure] whose last kind is [id], and [element] ranks strictly lower,
    yet a further [element('c')] does not raise the order error: the
    uniqueness check comes first and raises its own. *)
Lemma lower_rank_order_error_counterexample :
  let h := [ {| css := "a#b"; structure := [KElement; KId] |} ] in
  (this ← cssSelectorBuilder.element "a";
   CSSSelector.id "b" this) [] = Some (h, Return 0%nat)
  ∧ last [KElement; KId] = Some KId
  ∧ (rank KElement < rank KId)%nat
  ∧ CSSSelector.order KElement < CSSSelector.order KId
  ∧ CSSSelector.element "c" 0%nat h = Some (h, Throw (Error CSSSelector.msgUniqs))
  ∧ CSSSelector.element "c" 0%nat h ≠ Some (h, Throw (Error CSSSelector.msgOrder)).
Proof. repeat split; (done || (simpl; lia)). Qed.

(** C2, amended.  On a builder whose [structure] is not empty, a part whose
    rank is strictly less than the rank of the last recorded part raises:
    the uniqueness error when its kind is a singleton kind already recorded,
    the order error otherwise; the store is unchanged.  A part of equal rank
    never raises the order error, and when its kind is no singleton kind
    (a repeated [class], [attr] or [pseudoClass]) it is appended.  In
    particular [id('x').element('y')] raises the order error and
    [class('a').class('b').stringify()] is ['.a.b']. *)
Theorem lower_rank_raises (h : heap) (this : loc) (b : Selector) (c : call) (k : Kind) :
  h !! this = Some b →
  last (structure b) = Some k →
  ((rank c.1 < rank k)%nat →
     invoke c this h =
       Some (h, Throw (if decide (c.1 ∈ singleton_kinds ∧ c.1 ∈ structure b)
                       then Error CSSSelector.msgUniqs
                       else Error CSSSelector.msgOrder)))
  ∧ (rank c.1 = rank k →
       (∀ h', invoke c this h ≠ Some (h', Throw (Error CSSSelector.msgOrder)))
       ∧ (c.1 ∉ singleton_kinds →
            invoke c this h =
              Some (<[this := {| css := css b +:+ rendering c;
                                 structure := structure b ++ [c.1] |}]> h,
                    Return this)))
  ∧ (this ← cssSelectorBuilder.id "x";
     CSSSelector.element "y" this) [] =
      Some ([ {| css := "#x"; structure := [KId] |} ],
            Throw (Error CSSSelector.msgOrder))
  ∧ (this ← cssSelectorBuilder.class "a";
     this ← CSSSelector.class "b" this;
     CSSSelector.stringify this) [] =
      Some ([ {| css := ".a.b"; structure := [KClass; KClass] |} ],
            Return ".a.b").
Proof.
  intros Hb Hlast.
  pose proof (invoke_spec c h this b Hb) as Hi.
  unfold verdict in Hi. rewrite Hlast in Hi.
  split; [| split; [| split; reflexivity]].
  - intros Hlt. rewrite Hi, uniqs_singleton_kinds.
    destruct (decide (c.1 ∈ singleton_kinds ∧ c.1 ∈ structure b)); [done|].
    rewrite decide_True; [done | rewrite !order_rank; lia].
  - intros Heq.
    rewrite (decide_False (P := CSSSelector.order c.1 < CSSSelector.order k))
      in Hi by (rewrite !order_rank; lia).
    split.
    + intros h'. rewrite Hi.
      destruct (decide (c.1 ∈ CSSSelector.uniqs ∧ c.1 ∈ structure b)); discriminate.
    + intros Hu. rewrite Hi. rewrite decide_False; [done |].
      rewrite uniqs_singleton_kinds. tauto.
Qed.

Lemma lower_rank_raises_witness :
  CSSSelector.element "y" 0%nat [ {| css := "#x"; structure := [KId] |} ] =
    Some ([ {| css := "#x"; structure := [KId] |} ],
          Throw (Error CSSSelector.msgOrder)).
Proof.
  pose proof (lower_rank_raises
                [ {| css := "#x"; structure := [KId] |} ] 0%nat
                {| css := "#x"; structure := [KId] |} (KElement, "y") KId
                eq_refl eq_refl) as [Hlt _].
  apply Hlt. simpl. lia.
Defined.

(** ** The uniqueness check *)

(** C3.  On every builder, a part of kind [element], [id] or
    [pseudoElement] whose kind is already recorded anywhere in [structure]
    raises the uniqueness error, whatever the ranks are: the check comes
    before the order check.  In particular [element('a').id('b')] followed
    by [element('c')], where the order check would fail as well, raises the
    uniqueness error, which is not the order error. *)
Theorem repeated_singleton_raises (h : heap) (this : loc) (b : Selector) (c : call) :
  h !! this = Some b →
  c.1 = KElement ∨ c.1 = KId ∨ c.1 = KPseudoElement →
  c.1 ∈ structure b →
  invoke c this h = Some (h, Throw (Error CSSSelector.msgUniqs))
  ∧ Error CSSSelector.msgUniqs ≠ Error CSSSelector.msgOrder
  ∧ (this ← cssSelectorBuilder.element "a";
     this ← CSSSelector.id "b" this;
     CSSSelector.element "c" this) [] =
      Some ([ {| css := "a#b"; structure := [KElement; KId] |} ],
            Throw (Error CSSSelector.msgUniqs))
  ∧ (rank KElement < rank KId)%nat.
Proof.
  intros Hb Hkind Hin.
  split; [| split; [done | split; [reflexivity | simpl; lia]]].
  rewrite (invoke_spec c h this b Hb). unfold verdict.
  rewrite decide_True; [done|].
  split; [| done].
  unfold CSSSelector.uniqs.
  destruct Hkind as [-> | [-> | ->]]; repeat constructor.
Qed.

Lemma repeated_singleton_raises_witness :
  CSSSelector.element "c" 0%nat [ {| css := "a#b"; structure := [KElement; KId] |} ] =
    Some ([ {| css := "a#b"; structure := [KElement; KId] |} ],
          Throw (Error CSSSelector.msgUniqs)).
Proof.
  apply (repeated_singleton_raises
           [ {| css := "a#b"; structure := [KElement; KId] |} ] 0%nat
           {| css := "a#b"; structure := [KElement; KId] |} (KElement, "c")).
  - reflexivity.
  - left. reflexivity.
  - simpl. left.
Defined.

(** ** Combination *)

Lemma combine_spec h this left right bt bl br combinator :
  h !! this = Some bt →
  h !! left = Some bl →
  h !! right = Some br →
  CSSSelector.combine left combinator right this h =
    Some (<[this := {| css := css bt +:+ (css bl +:+ " " +:+ combinator
                                            +:+ " " +:+ css br);
                       structure := structure bt |}]> h,
          Return this).
Proof.
  intros Ht Hl Hr. unfold CSSSelector.combine, CSSSelector.stringify.
  bind_with (read_Some css _ _ _ Ht).
  bind_with (read_Some css _ _ _ Hl).
  bind_with (read_Some css _ _ _ Hr).
  by bind_with (write_Some _ _ _ _ Ht).
Qed.

(** C4.  [combine(left, c, right)] on a receiver, for any three instances
    (which may coincide): it never raises whatever the three [structure]s
    hold, it appends exactly [left.stringify() + " " + c + " " +
    right.stringify()] to the receiver's text, it leaves the receiver's
    [structure] and every other instance as they are, and it returns the
    receiver.  Through the facade the receiver is a fresh instance, and
    [combine(element('div'), '+', id('main')).stringify()] is
    ['div + #main']. *)
Theorem combine_appends (h : heap) (this left right : loc)
    (bt bl br : Selector) (combinator : string) :
  h !! this = Some bt →
  h !! left = Some bl →
  h !! right = Some br →
  CSSSelector.combine left combinator right this h =
    Some (<[this := {| css := css bt +:+ (css bl +:+ " " +:+ combinator
                                            +:+ " " +:+ css br);
                       structure := structure bt |}]> h,
          Return this)
  ∧ cssSelectorBuilder.combine left combinator right h =
      Some (h ++ [ {| css := css bl +:+ " " +:+ combinator +:+ " " +:+ css br;
                      structure := [] |} ],
            Return (length h))
  ∧ (left' ← cssSelectorBuilder.element "div";
     right' ← cssSelectorBuilder.id "main";
     this' ← cssSelectorBuilder.combine left' "+" right';
     CSSSelector.stringify this') [] =
      Some ([ {| css := "div"; structure := [KElement] |};
              {| css := "#main"; structure := [KId] |};
              {| css := "div + #main"; structure := [] |} ],
            Return "div + #main").
Proof.
  intros Ht Hl Hr. split; [by apply combine_spec | split; [| reflexivity]].
  unfold cssSelectorBuilder.combine.
  bind_with (constructor_spec h).
  rewrite (combine_spec _ (length h) left right
             {| css := EmptyString; structure := [] |} bl br combinator).
  - by rewrite update_last.
  - by apply list_lookup_middle.
  - rewrite lookup_app_l; [done | by eapply lookup_lt_Some].
  - rewrite lookup_app_l; [done | by eapply lookup_lt_Some].
Qed.

Lemma combine_appends_witness :
  CSSSelector.combine 0%nat ">" 0%nat 0%nat
    [ {| css := "ul"; structure := [KElement] |} ] =
  Some ([ {| css := "ulul > ul"; structure := [KElement] |} ], Return 0%nat).
Proof.
  pose proof (combine_appends
                [ {| css := "ul"; structure := [KElement] |} ] 0%nat 0%nat 0%nat
                {| css := "ul"; structure := [KElement] |}
                {| css := "ul"; structure := [KElement] |}
                {| css := "ul"; structure := [KElement] |} ">"
                eq_refl eq_refl eq_refl) as [Hc _].
  exact Hc.
Defined.

(** ** The examples of the source's documentation *)

Example doc_id_classes :
  (this ← cssSelectorBuilder.id "main";
   this ← CSSSelector.class "container" this;
   this ← CSSSelector.class "editable" this;
   CSSSelector.stringify this) [] =
    Some ([ {| css := "#main.container.editable";
               structure := [KId; KClass; KClass] |} ],
          Return "#main.container.editable").
Proof. reflexivity. Qed.

Example doc_nested_combine :
  ∃ h,
    (div ← cssSelectorBuilder.element "div";
     div ← CSSSelector.id "main" div;
     div ← CSSSelector.class "container" div;
     div ← CSSSelector.class "draggable" div;
     table ← cssSelectorBuilder.element "table";
     table ← CSSSelector.id "data" table;
     tr ← cssSelectorBuilder.element "tr";
     tr ← CSSSelector.pseudoClass "nth-of-type(even)" tr;
     td ← cssSelectorBuilder.element "td";
     td ← CSSSelector.pseudoClass "nth-of-type(even)" td;
     inner ← cssSelectorBuilder.combine tr " " td;
     middle ← cssSelectorBuilder.combine table "~" inner;
     outer ← cssSelectorBuilder.combine div "+" middle;
     CSSSelector.stringify outer) [] =
    Some (h, Return "div#main.container.draggable + table#data ~ tr:nth-of-type(even)   td:nth-of-type(even)").
Proof. eexists. reflexivity. Qed.

(** ** Reading the text *)

(** C6.  On every builder, in any state, [stringify()] returns the current
    text and leaves the whole store, and so the builder's text and
    [structure], as it was; two calls in a row return the same string.  The
    facade's bare [stringify()] returns the empty string from any store,
    and touches no instance that existed before. *)
Theorem stringify_reads (h : heap) (this : loc) (b : Selector) :
  h !! this = Some b →
  CSSSelector.stringify this h = Some (h, Return (css b))
  ∧ (s1 ← CSSSelector.stringify this;
     s2 ← CSSSelector.stringify this;
     mret (s1, s2)) h = Some (h, Return (css b, css b))
  ∧ ∀ h0 : heap,
      cssSelectorBuilder.stringify h0 =
        Some (h0 ++ [ {| css := EmptyString; structure := [] |} ],
              Return EmptyString).
Proof.
  intros Hb.
  assert (CSSSelector.stringify this h = Some (h, Return (css b))) as Hs
    by (by apply read_Some).
  split; [done | split].
  - by do 2 bind_with Hs.
  - intros h0. unfold cssSelectorBuilder.stringify.
    bind_with (constructor_spec h0).
    unfold CSSSelector.stringify.
    by rewrite (read_Some css _ (length h0) _ (list_lookup_middle _ _ _ _ eq_refl)).
Qed.

Lemma stringify_reads_witness :
  CSSSelector.stringify 1%nat
    [ {| css := "div"; structure := [KElement] |};
      {| css := "#main.container"; structure := [KId; KClass] |} ] =
  Some ([ {| css := "div"; structure := [KElement] |};
          {| css := "#main.container"; structure := [KId; KClass] |} ],
        Return "#main.container").
Proof.
  pose proof (stringify_reads
                [ {| css := "div"; structure := [KElement] |};
                  {| css := "#main.container"; structure := [KId; KClass] |} ]
                1%nat {| css := "#main.container"; structure := [KId; KClass] |}
                eq_refl) as [Hs _].
  exact Hs.
Defined.

(** ** A failed append *)

Lemma invoke_total (c : call) (h : heap) (this : loc) :
  is_Some (h !! this) ↔ is_Some (invoke c this h).
Proof.
  split.
  - intros [b Hb]. rewrite (invoke_spec c h this b Hb).
    destruct (verdict c.1 (structure b)); eauto.
  - intros [r Hr]. destruct (h !! this) as [b|] eqn:Hb; [eauto|].
    exfalso. destruct c as [k v].
    unfold invoke, CSSSelector.element, CSSSelector.id, CSSSelector.class,
      CSSSelector.attr, CSSSelector.pseudoClass, CSSSelector.pseudoElement,
      CSSSelector.checkStructure, mbind, M_bind, read in Hr.
    destruct k; simpl in Hr; rewrite Hb in Hr; discriminate.
Qed.

(** C7.  Whenever a part method raises, with either error, the store after
    the call is the store before it: the builder's text and [structure],
    and every other instance, are exactly as they were. *)
Theorem failed_append_unchanged (c : call) (h h' : heap) (this : loc) (e : exn) :
  invoke c this h = Some (h', Throw e) →
  h' = h
  ∧ (e = Error CSSSelector.msgUniqs ∨ e = Error CSSSelector.msgOrder).
Proof.
  intros Hi.
  destruct (proj2 (invoke_total c h this)) as [b Hb]; [eauto|].
  rewrite (invoke_spec c h this b Hb) in Hi.
  unfold verdict in Hi.
  destruct (decide (c.1 ∈ CSSSelector.uniqs ∧ c.1 ∈ structure b)).
  - inversion Hi; subst. auto.
  - destruct (last (structure b)) as [k|]; [| discriminate].
    destruct (decide (CSSSelector.order c.1 < CSSSelector.order k));
      [| discriminate].
    inversion Hi; subst. auto.
Qed.

Lemma failed_append_unchanged_witness :
  [ {| css := "p::first-line"; structure := [KElement; KPseudoElement] |} ] =
  [ {| css := "p::first-line"; structure := [KElement; KPseudoElement] |} ]
  ∧ (Error CSSSelector.msgOrder = Error CSSSelector.msgUniqs
     ∨ Error CSSSelector.msgOrder = Error CSSSelector.msgOrder).
Proof.
  apply (failed_append_unchanged (KClass, "intro")
           [ {| css := "p::first-line"; structure := [KElement; KPseudoElement] |} ]
           _ 0%nat (Error CSSSelector.msgOrder)).
  reflexivity.
Defined.

(** ** The invariant of [structure] *)

Lemma well_formed_empty : well_formed {| css := EmptyString; structure := [] |}.
Proof.
  split; [constructor|]. unfold singletons_once. repeat constructor.
Qed.

Lemma weakly_increasing_snoc (s : list Kind) (k : Kind) :
  weakly_increasing s →
  (∀ k', last s = Some k' → rank_le k' k) →
  weakly_increasing (s ++ [k]).
Proof.
  intros Hs Hlast. apply StronglySorted_app_2; [| done | repeat constructor].
  intros x1 x2 Hx1 Hx2. apply list_elem_of_singleton in Hx2 as ->.
  destruct s as [|k' s _] using rev_ind; [by apply elem_of_nil in Hx1|].
  assert (rank_le k' k) as Hk' by (apply Hlast, last_snoc).
  apply elem_of_app in Hx1 as [Hx1 | Hx1].
  - assert (rank_le x1 k') as Hx1k'.
    { eapply (StronglySorted_app_1_elem_of rank_le s [k']); [done | done | left]. }
    unfold rank_le in *. lia.
  - by apply list_elem_of_singleton in Hx1 as ->.
Qed.

Lemma occurrences_other (k u : Kind) : u ≠ k → occurrences u [k] = 0%nat.
Proof. intros Hne. unfold occurrences. by rewrite filter_cons_False. Qed.

Lemma singletons_once_snoc (s : list Kind) (k : Kind) :
  singletons_once s →
  ¬ (k ∈ CSSSelector.uniqs ∧ k ∈ s) →
  singletons_once (s ++ [k]).
Proof.
  unfold singletons_once. rewrite !Forall_forall. intros Hs Hk u Hu.
  rewrite occurrences_app. specialize (Hs u Hu).
  destruct (decide (u = k)) as [-> | Hne].
  - rewrite occurrences_self.
    assert (¬ (0 < occurrences k s)%nat) by (rewrite <- occurrences_elem_of; tauto).
    lia.
  - rewrite occurrences_other by done. lia.
Qed.

Lemma well_formed_append (b : Selector) (k : Kind) (text : string) :
  well_formed b →
  verdict k (structure b) = None →
  well_formed {| css := text; structure := structure b ++ [k] |}.
Proof.
  intros [Hsorted Honce] Hv. unfold verdict in Hv.
  destruct (decide (k ∈ CSSSelector.uniqs ∧ k ∈ structure b)) as [|Hn];
    [discriminate|].
  split; simpl.
  - apply weakly_increasing_snoc; [done|].
    intros k' Hlast. rewrite Hlast in Hv.
    destruct (decide (CSSSelector.order k < CSSSelector.order k'));
      [discriminate|].
    unfold rank_le. rewrite !order_rank in *. lia.
  - by apply singletons_once_snoc.
Qed.

Lemma heap_inv_lookup (h : heap) this b :
  heap_inv h → h !! this = Some b → well_formed b.
Proof. intros Hinv Hb. by eapply Forall_lookup_1. Qed.

Lemma invoke_inv (c : call) (h h' : heap) (this : loc) r :
  heap_inv h → invoke c this h = Some (h', r) → heap_inv h'.
Proof.
  intros Hinv Hi.
  destruct (proj2 (invoke_total c h this)) as [b Hb]; [eauto|].
  rewrite (invoke_spec c h this b Hb) in Hi.
  destruct (verdict c.1 (structure b)) eqn:Hv; inversion Hi; subst; [done|].
  apply Forall_insert; [done|].
  apply well_formed_append; [by eapply heap_inv_lookup | done].
Qed.

Lemma combine_inv (h h' : heap) (this left right : loc) combinator r :
  heap_inv h →
  CSSSelector.combine left combinator right this h = Some (h', r) →
  heap_inv h'.
Proof.
  intros Hinv Hc.
  destruct (h !! this) as [bt|] eqn:Ht; destruct (h !! left) as [bl|] eqn:Hl;
    destruct (h !! right) as [br|] eqn:Hr;
    try (rewrite (combine_spec _ _ _ _ _ _ _ _ Ht Hl Hr) in Hc;
         inversion Hc; subst;
         apply Forall_insert; [done|];
         by destruct (heap_inv_lookup _ _ _ Hinv Ht));
    exfalso;
    unfold CSSSelector.combine, CSSSelector.stringify, mbind, M_bind, read in Hc;
    rewrite ?Ht, ?Hl, ?Hr in Hc; discriminate.
Qed.

Lemma exec_inv (o : op) (h h' : heap) r :
  heap_inv h → exec o h = Some (h', r) → heap_inv h'.
Proof.
  intros Hinv He. destruct o as [|c this|s1 comb s2 this|this]; simpl in He.
  - inversion He; subst.
    apply Forall_app_2; [done|]. constructor; [apply well_formed_empty | done].
  - unfold mbind, M_bind in He.
    destruct (invoke c this h) as [[h1 [l|e]]|] eqn:Hi; inversion He; subst;
      by eapply invoke_inv.
  - unfold mbind, M_bind in He.
    destruct (CSSSelector.combine s1 comb s2 this h) as [[h1 [l|e]]|] eqn:Hc;
      inversion He; subst; by eapply combine_inv.
  - unfold CSSSelector.stringify, mbind, M_bind, read in He.
    destruct (h !! this); inversion He; by subst.
Qed.

Lemma run_inv (os : list op) :
  ∀ h0 h, heap_inv h0 → run os h0 = Some h → heap_inv h.
Proof.
  induction os as [|o os IH]; intros h0 h Hinv Hrun; simpl in Hrun.
  - by inversion Hrun; subst.
  - destruct (exec o h0) as [[h1 r]|] eqn:He; [| discriminate].
    eapply IH; [| done]. by eapply exec_inv.
Qed.

(** C5.  In every store a program reaches from the empty one by creating
    builders and calling part methods, [combine] and [stringify] on them
    (whether or not some of the calls raised), the [structure] of every
    builder is non-decreasing in rank and holds each of [element], [id] and
    [pseudoElement] at most once; and every further operation, raising or
    not, leads to a store where this holds again. *)
Theorem structure_invariant (h : heap) :
  reachable h →
  (∀ this b, h !! this = Some b →
     weakly_increasing (structure b) ∧ singletons_once (structure b))
  ∧ (∀ o h' r, exec o h = Some (h', r) →
       ∀ this b, h' !! this = Some b →
         weakly_increasing (structure b) ∧ singletons_once (structure b)).
Proof.
  intros [os Hrun].
  assert (heap_inv h) as Hinv by (eapply run_inv; [constructor | done]).
  split.
  - intros this b Hb. by eapply heap_inv_lookup.
  - intros o h' r He this b Hb.
    eapply heap_inv_lookup; [| done]. by eapply exec_inv.
Qed.

Lemma structure_invariant_witness :
  weakly_increasing [KElement; KClass; KClass]
  ∧ singletons_once [KElement; KClass; KClass].
Proof.
  assert (reachable
            [ {| css := "li.itemli.item > #nav.active";
                 structure := [KElement; KClass; KClass] |};
              {| css := "#nav"; structure := [KId] |} ]) as Hr.
  { exists [New; Part (KElement, "li") 0%nat; Part (KClass, "item") 0%nat;
            New; Part (KId, "nav") 1%nat; Part (KElement, "ul") 1%nat;
            Combine 0%nat ">" 1%nat 0%nat; Part (KClass, "active") 0%nat;
            Stringify 0%nat].
    reflexivity. }
  pose proof (structure_invariant _ Hr) as [Hreach _].
  apply (Hreach 0%nat
           {| css := "li.itemli.item > #nav.active";
              structure := [KElement; KClass; KClass] |}).
  reflexivity.
Defined.

(** * Properties of the object helpers *)

(** ** Rectangle *)

(** C9.  For all numbers [w] and [h], [Rectangle(w, h)] has [width = w] and
    [height = h], and [getArea()] is the product of the two fields as they
    are when it is called: after an assignment to [width] or [height] it
    returns the product of the new values.  On integers,
    [Rectangle(10, 20).getArea()] is [200], and after [width = 7] it is
    [140]. *)
Theorem rectangle_area :
  (∀ (number : Type) (times : number → number → number) (w h : number),
     width (Rectangle w h) = w
     ∧ height (Rectangle w h) = h
     ∧ getArea times (Rectangle w h) = times w h
     ∧ ∀ w' h' : number,
         getArea times (assign_width w' (Rectangle w h)) = times w' h
         ∧ getArea times (assign_height h' (Rectangle w h)) = times w h'
         ∧ getArea times (assign_height h' (assign_width w' (Rectangle w h)))
           = times w' h')
  ∧ getArea Z.mul (Rectangle 10 20) = 200
  ∧ getArea Z.mul (assign_width 7 (Rectangle 10 20)) = 140.
Proof. repeat split. Qed.

(** ** Copying parsed fields on a fresh object *)

Section ObjectFacts.

Context {number function : Type}.
Variable call_setter :
  function → object number function → value number function
  → outcome (object number function).

Lemma assoc_None_iff {A : Type} (key : string) (l : list (string * A)) :
  assoc key l = None ↔ key ∉ l.*1.
Proof.
  induction l as [|[k a] l IH]; simpl.
  - split; [intros _; apply not_elem_of_nil | done].
  - destruct (decide (k = key)) as [-> | Hne].
    + split; [discriminate | intros Hn; exfalso; apply Hn; left].
    + rewrite IH, not_elem_of_cons. split; [by split | by intros [_ ?]].
Qed.

Lemma define_fresh {A : Type} (key : string) (a : A) (l : list (string * A)) :
  key ∉ l.*1 → define key a l = l ++ [(key, a)].
Proof.
  induction l as [|[k b] l IH]; simpl; [done|].
  rewrite not_elem_of_cons. intros [Hne Hnin].
  rewrite decide_False by done. by rewrite IH.
Qed.

Lemma data_fields_keys (members : list (string * json number)) :
  (data_fields (function := function) members).*1 = members.*1.
Proof.
  induction members as [|m members IH]; [done|].
  simpl. f_equal. exact IH.
Qed.

(** An assignment the prototype chain does not intercept makes a new own
    data property, after the ones the receiver has. *)
Lemma set_property_fresh (own : list (string * property number function))
    (proto : object number function) (key : string)
    (v : value number function) :
  key ∉ own.*1 →
  assignable proto key →
  set_property call_setter (Obj own (Some proto)) key v =
    Return (Obj (own ++ [(key, DataProperty v true)]) (Some proto)).
Proof.
  intros Hfresh Hassignable.
  pose proof (proj2 (assoc_None_iff key own) Hfresh) as Hown.
  unfold set_property, own_property, assignable in *. simpl.
  rewrite Hown.
  destruct (get_property proto key) as [[v' [|]|g s]|]; try done;
    by rewrite define_fresh.
Qed.

Lemma assign_all_fresh (members : list (string * json number)) :
  ∀ (done_ : list (string * json number)) (proto : object number function),
    NoDup (done_ ++ members).*1 →
    (∀ key, key ∈ members.*1 → assignable proto key) →
    assign_all call_setter (Obj (data_fields done_) (Some proto)) members =
      Return (Obj (data_fields (done_ ++ members)) (Some proto)).
Proof.
  induction members as [|[k j] members IH]; intros done_ proto Hnodup Hassign;
    simpl.
  - by rewrite app_nil_r.
  - rewrite set_property_fresh.
    + replace (data_fields done_ ++ [(k, DataProperty (VData j) true)])
        with (data_fields (function := function) (done_ ++ [(k, j)]))
        by (unfold data_fields; by rewrite fmap_app).
      rewrite IH.
      * by rewrite <- app_assoc.
      * by rewrite <- app_assoc.
      * intros key Hkey. apply Hassign. simpl. by right.
    + rewrite data_fields_keys. rewrite fmap_app in Hnodup.
      apply NoDup_app in Hnodup as (_ & Hdisj & _).
      intros Hin. apply (Hdisj k Hin). simpl. left.
    + apply Hassign. simpl. left.
Qed.

End ObjectFacts.

(** ** [fromJSON] after [getJSON] *)

(** C8, as stated, fails: [fromJSON] assigns the parsed fields, and an
    assignment is answered by a setter when the prototype has one.  The
    plain object [{radius: 10}] survives [JSON.parse(JSON.stringify(...))]
    unchanged, yet on a prototype with an accessor [radius] the result has
    no own field [radius]: the setter ran and left an own field [_radius]. *)
Lemma fromJSON_setter_counterexample :
  let obj := JObject [("radius", JNumber 10)] in
  let result :=
    Obj [("_radius", DataProperty (VData (JNumber 10)) true)]
        (Some Runtime.Wheel_prototype) in
  getJSON Runtime.JSON_stringify obj = "{" +:+ Runtime.quoted "radius" +:+ ":10}"
  ∧ Runtime.JSON_parse (getJSON Runtime.JSON_stringify obj) = Return obj
  ∧ fromJSON Runtime.call_setter Runtime.JSON_parse
      (Some Runtime.Wheel_prototype) (getJSON Runtime.JSON_stringify obj)
    = Return result
  ∧ own_property result "radius" = None
  ∧ own_properties result ≠ data_fields [("radius", JNumber 10)].
Proof. repeat split; [vm_compute; reflexivity .. | discriminate]. Qed.

(** C8, amended.  Let [obj] be an object whose own fields are plain data
    that survive [JSON.parse(JSON.stringify(obj))] unchanged, and let
    [proto] be a prototype object on which no field name of [obj] resolves,
    through own or inherited members, to an accessor or to a read-only
    property.  Then [fromJSON(proto, getJSON(obj))] raises nothing and
    returns an object whose own fields are exactly the fields of [obj], in
    the same order, and whose prototype is [proto]: whatever name is not
    one of its own fields resolves to what it resolves to on [proto], so
    the inherited methods are reached through the link as members that are
    not its own. *)
Theorem fromJSON_getJSON_roundtrip {number function : Type}
    (call_setter : function → object number function → value number function
                   → outcome (object number function))
    (JSON_stringify : json number → string)
    (JSON_parse : string → outcome (json number))
    (proto : object number function)
    (members : list (string * json number)) :
  NoDup members.*1 →
  JSON_parse (JSON_stringify (JObject members)) = Return (JObject members) →
  (∀ key, key ∈ members.*1 → assignable proto key) →
  let result := Obj (data_fields members) (Some proto) in
  fromJSON call_setter JSON_parse (Some proto)
    (getJSON JSON_stringify (JObject members)) = Return result
  ∧ own_properties result = data_fields members
  ∧ prototype_of result = Some proto
  ∧ (∀ key p, own_property result key = Some p →
       get_property result key = Some p
       ∧ ∃ j, (key, j) ∈ members ∧ p = DataProperty (VData j) true)
  ∧ (∀ key, own_property result key = None →
       get_property result key = get_property proto key).
Proof.
  intros Hnodup Hround Hassign result.
  split; [| split; [done | split; [done | split]]].
  - unfold fromJSON, getJSON, Object_assign, Object_create.
    rewrite Hround. simpl.
    by apply (assign_all_fresh call_setter members [] proto).
  - intros key p Hown. unfold own_property in Hown. simpl in *.
    rewrite Hown. split; [done|].
    clear -Hown. unfold data_fields in Hown.
    induction members as [|[k j] members IH]; simpl in Hown; [done|].
    destruct (decide (k = key)) as [-> | Hne].
    + inversion Hown; subst. exists j. split; [left | done].
    + destruct (IH Hown) as (j' & Hin & ->). exists j'. split; [by right | done].
  - intros key Hown. unfold own_property in Hown. simpl in *. by rewrite Hown.
Qed.

Lemma fromJSON_getJSON_roundtrip_witness :
  fromJSON Runtime.call_setter Runtime.JSON_parse (Some Runtime.Circle_prototype)
    (getJSON Runtime.JSON_stringify (JObject [("radius", JNumber 10)]))
  = Return (Obj [("radius", DataProperty (VData (JNumber 10)) true)]
                (Some Runtime.Circle_prototype)).
Proof.
  pose proof (fromJSON_getJSON_roundtrip
                Runtime.call_setter Runtime.JSON_stringify Runtime.JSON_parse
                Runtime.Circle_prototype [("radius", JNumber 10)]) as H.
  simpl in H. apply H.
  - repeat constructor. apply not_elem_of_nil.
  - vm_compute. reflexivity.
  - intros key Hkey. apply list_elem_of_singleton in Hkey as ->.
    vm_compute. exact I.
Defined.

(** * Further properties of the selector builder *)

(** ** Operations touch the receiver only *)

Lemma invoke_cases (c : call) (h h' : heap) (this : loc) r :
  invoke c this h = Some (h', r) →
  ∃ b, h !! this = Some b
    ∧ ((∃ e, verdict c.1 (structure b) = Some e ∧ h' = h ∧ r = Throw e)
       ∨ (verdict c.1 (structure b) = None
          ∧ h' = <[this := {| css := css b +:+ rendering c;
                              structure := structure b ++ [c.1] |}]> h
          ∧ r = Return this)).
Proof.
  intros Hi.
  destruct (proj2 (invoke_total c h this)) as [b Hb]; [eauto|].
  exists b. split; [done|].
  rewrite (invoke_spec c h this b Hb) in Hi.
  destruct (verdict c.1 (structure b)) as [e|]; inversion Hi; subst.
  - left. eauto.
  - right. eauto.
Qed.

Lemma combine_cases (h h' : heap) (this left right : loc) combinator r :
  CSSSelector.combine left combinator right this h = Some (h', r) →
  ∃ bt bl br, h !! this = Some bt ∧ h !! left = Some bl ∧ h !! right = Some br
    ∧ h' = <[this := {| css := css bt +:+ (css bl +:+ " " +:+ combinator
                                             +:+ " " +:+ css br);
                        structure := structure bt |}]> h
    ∧ r = Return this.
Proof.
  intros Hc.
  destruct (h !! this) as [bt|] eqn:Ht; destruct (h !! left) as [bl|] eqn:Hl;
    destruct (h !! right) as [br|] eqn:Hr;
    try (rewrite (combine_spec _ _ _ _ _ _ _ _ Ht Hl Hr) in Hc;
         inversion Hc; subst; by eauto 10);
    exfalso;
    unfold CSSSelector.combine, CSSSelector.stringify, mbind, M_bind, read in Hc;
    rewrite ?Ht, ?Hl, ?Hr in Hc; discriminate.
Qed.

Lemma exec_cases (o : op) (h h' : heap) r :
  exec o h = Some (h', r) →
  h' = h
  ∨ (o = New ∧ h' = h ++ [ {| css := EmptyString; structure := [] |} ])
  ∨ (∃ this b b', receiver o = Some this ∧ h !! this = Some b
       ∧ h' = <[this := b']> h ∧ grows b b').
Proof.
  intros He. destruct o as [|c this|s1 comb s2 this|this]; simpl in He.
  - inversion He; subst. right. left. done.
  - unfold mbind, M_bind in He.
    destruct (invoke c this h) as [[h1 r1]|] eqn:Hi; [| discriminate].
    assert (h' = h1) as -> by (destruct r1; by inversion He).
    destruct (invoke_cases _ _ _ _ _ Hi) as (b & Hb & [(e & _ & -> & _) | (_ & -> & _)]).
    + by left.
    + right. right. eexists this, b, _. repeat split; try done; simpl; eauto.
  - unfold mbind, M_bind in He.
    destruct (CSSSelector.combine s1 comb s2 this h) as [[h1 r1]|] eqn:Hc;
      [| discriminate].
    assert (h' = h1) as -> by (destruct r1; by inversion He).
    destruct (combine_cases _ _ _ _ _ _ _ Hc)
      as (bt & bl & br & Ht & _ & _ & -> & _).
    right. right. eexists this, bt, _. repeat split; try done; simpl; eauto.
    exists []. by rewrite app_nil_r.
  - left. unfold CSSSelector.stringify, mbind, M_bind, read in He.
    destruct (h !! this); by inversion He.
Qed.

(** X1.  An operation changes no instance but its receiver: after a part
    method or [combine], whether it raised or not, every other instance of
    the store is what it was; creating a builder and [stringify] change no
    instance at all. *)
Theorem exec_frame (o : op) (h h' : heap) (r : outcome unit) (l : loc) (b : Selector) :
  exec o h = Some (h', r) →
  h !! l = Some b →
  receiver o ≠ Some l →
  h' !! l = Some b.
Proof.
  intros He Hb Hrecv.
  destruct (exec_cases _ _ _ _ He)
    as [-> | [[-> ->] | (this & b0 & b' & Hr & _ & -> & _)]].
  - done.
  - rewrite lookup_app_l; [done | by eapply lookup_lt_Some].
  - rewrite list_lookup_insert_ne; [done|]. congruence.
Qed.

Lemma exec_frame_witness :
  [ {| css := "li.item"; structure := [KElement; KClass] |};
    {| css := "#nav"; structure := [KId] |} ] !! 1%nat
  = Some {| css := "#nav"; structure := [KId] |}.
Proof.
  apply (exec_frame (Part (KClass, "item") 0%nat)
           [ {| css := "li"; structure := [KElement] |};
             {| css := "#nav"; structure := [KId] |} ]
           _ (Return tt) 1%nat).
  - reflexivity.
  - reflexivity.
  - simpl. discriminate.
Defined.

(** ** Text and structure only grow *)

Lemma grows_refl (b : Selector) : grows b b.
Proof.
  split; [exists EmptyString; by rewrite string_app_nil_r
         | exists []; by rewrite app_nil_r].
Qed.

Lemma grows_trans (b1 b2 b3 : Selector) : grows b1 b2 → grows b2 b3 → grows b1 b3.
Proof.
  intros [[t1 Ht1] [k1 Hk1]] [[t2 Ht2] [k2 Hk2]]. split.
  - exists (t1 +:+ t2). by rewrite Ht2, Ht1, string_app_assoc.
  - exists (k1 ++ k2). by rewrite Hk2, Hk1, app_assoc.
Qed.

Lemma exec_grows (o : op) (h h' : heap) r (l : loc) (b : Selector) :
  exec o h = Some (h', r) →
  h !! l = Some b →
  ∃ b', h' !! l = Some b' ∧ grows b b'.
Proof.
  intros He Hb.
  destruct (exec_cases _ _ _ _ He)
    as [-> | [[-> ->] | (this & b0 & b' & Hr & Hb0 & -> & Hg)]].
  - exists b. split; [done | apply grows_refl].
  - exists b. split; [| apply grows_refl].
    rewrite lookup_app_l; [done | by eapply lookup_lt_Some].
  - destruct (decide (this = l)) as [-> | Hne].
    + exists b'. split; [by eapply lookup_updated|]. congruence.
    + exists b. split; [by rewrite list_lookup_insert_ne | apply grows_refl].
Qed.

(** X2.  Along any program, from any store, an instance is never removed,
    its text is only ever appended to and its [structure] only ever pushed
    on: what [stringify()] returned before is a prefix of what it returns
    later, and the recorded kinds are never reset. *)
Theorem run_grows (os : list op) (h h' : heap) (l : loc) (b : Selector) :
  run os h = Some h' →
  h !! l = Some b →
  ∃ b', h' !! l = Some b' ∧ grows b b'.
Proof.
  revert h b. induction os as [|o os IH]; intros h b Hrun Hb; simpl in Hrun.
  - inversion Hrun; subst. exists b. split; [done | apply grows_refl].
  - destruct (exec o h) as [[h1 r]|] eqn:He; [| discriminate].
    destruct (exec_grows _ _ _ _ _ _ He Hb) as (b1 & Hb1 & Hg1).
    destruct (IH _ _ Hrun Hb1) as (b' & Hb' & Hg').
    exists b'. split; [done | by eapply grows_trans].
Qed.

Lemma run_grows_witness :
  ∃ b', [ {| css := "ula > a.x"; structure := [KElement; KClass] |};
          {| css := "a"; structure := [KElement] |} ] !! 0%nat = Some b'
        ∧ grows {| css := "ul"; structure := [KElement] |} b'.
Proof.
  apply (run_grows [New; Part (KElement, "a") 1%nat;
                    Part (KElement, "late") 0%nat;
                    Combine 1%nat ">" 1%nat 0%nat;
                    Part (KClass, "x") 0%nat]
           [ {| css := "ul"; structure := [KElement] |} ]).
  - reflexivity.
  - reflexivity.
Defined.

(** ** Which chains are accepted *)

Lemma chain_returns (cs : list call) :
  ∀ h h' this l b,
    h !! this = Some b →
    well_formed b →
    chain cs this h = Some (h', Return l) →
    weakly_increasing (structure b ++ cs.*1)
    ∧ singletons_once (structure b ++ cs.*1).
Proof.
  induction cs as [|c cs IH]; intros h h' this l b Hb Hwf Hc; simpl in *.
  - rewrite app_nil_r. exact Hwf.
  - unfold mbind, M_bind in Hc.
    destruct (invoke c this h) as [[h1 [l1|e]]|] eqn:Hi; try discriminate.
    destruct (invoke_cases _ _ _ _ _ Hi)
      as (b0 & Hb0 & [(e & _ & _ & ?) | (Hv & -> & Hl)]); [discriminate|].
    assert (b0 = b) as -> by congruence.
    inversion Hl; subst l1.
    pose proof (lookup_updated h this b
                  {| css := css b +:+ rendering c;
                     structure := structure b ++ [c.1] |} Hb) as Hb1.
    pose proof (IH _ _ _ _ _ Hb1 (well_formed_append b c.1 _ Hwf Hv) Hc) as Hwf'.
    simpl in Hwf'. by rewrite <- app_assoc in Hwf'.
Qed.

(** X3.  A chain of part-method calls on a fresh builder returns without
    raising exactly when its kinds are weakly increasing in rank and hold
    each of [element], [id] and [pseudoElement] at most once: the two
    checks of [checkStructure] accept the valid chains and no others. *)
Theorem chain_returns_iff_valid (cs : list call) (h : heap) :
  (∃ h' l, (this ← CSSSelector.constructor; chain cs this) h
           = Some (h', Return l))
  ↔ weakly_increasing cs.*1 ∧ singletons_once cs.*1.
Proof.
  assert ((h ++ [ {| css := EmptyString; structure := [] |} ]) !! length h
          = Some {| css := EmptyString; structure := [] |}) as Hb
    by (by apply list_lookup_middle).
  split.
  - intros (h' & l & Hrun).
    rewrite (bind_Return _ _ _ _ _ (constructor_spec h)) in Hrun.
    apply (chain_returns cs _ _ _ _ _ Hb well_formed_empty Hrun).
  - intros [Hsorted Honce].
    bind_with (constructor_spec h).
    rewrite (chain_valid cs _ _ _ Hb Hsorted Honce). eauto.
Qed.

(** X4.  When a chain of part-method calls raises, it raises at one call:
    the calls before it went through and the builder holds their
    renderings and kinds, the failing call raised the chain's exception
    and changed nothing, and the calls after it were not made. *)
Theorem chain_raises_at (cs : list call) (h h' : heap) (this : loc)
    (b : Selector) (e : exn) :
  h !! this = Some b →
  chain cs this h = Some (h', Throw e) →
  ∃ pre c post,
    cs = pre ++ c :: post
    ∧ chain pre this h = Some (h', Return this)
    ∧ invoke c this h' = Some (h', Throw e)
    ∧ h' !! this = Some {| css := css b +:+ renderings pre;
                           structure := structure b ++ pre.*1 |}.
Proof.
  revert h b. induction cs as [|c cs IH]; intros h b Hb Hc; simpl in Hc;
    [discriminate|].
  unfold mbind, M_bind in Hc.
  destruct (invoke c this h) as [[h1 [l1|e1]]|] eqn:Hi; try discriminate.
  - destruct (invoke_cases _ _ _ _ _ Hi)
      as (b0 & Hb0 & [(e0 & _ & _ & ?) | (Hv & -> & Hl)]); [discriminate|].
    assert (b0 = b) as -> by congruence. inversion Hl; subst l1.
    pose proof (lookup_updated h this b
                  {| css := css b +:+ rendering c;
                     structure := structure b ++ [c.1] |} Hb) as Hb1.
    destruct (IH _ _ Hb1 Hc) as (pre & c' & post & -> & Hpre & Hfail & Hfinal).
    exists (c :: pre), c', post. split; [done|]. split; [| split; [done|]].
    + simpl. by bind_with Hi.
    + rewrite Hfinal. simpl. unfold renderings. simpl.
      by rewrite string_app_assoc, <- app_assoc.
  - inversion Hc; subst h1 e1.
    destruct (invoke_cases _ _ _ _ _ Hi)
      as (b0 & Hb0 & [(e0 & _ & -> & _) | (_ & _ & ?)]); [|discriminate].
    exists [], c, cs. split; [done|]. split; [done|]. split; [done|].
    rewrite Hb. unfold renderings. simpl.
    rewrite string_app_nil_r, app_nil_r. by destruct b.
Qed.

Lemma chain_raises_at_witness :
  ∃ pre c post,
    [(KElement, "a"); (KClass, "x"); (KId, "late"); (KClass, "y")]
      = pre ++ c :: post
    ∧ chain pre 0%nat [ {| css := EmptyString; structure := [] |} ]
      = Some ([ {| css := "a.x"; structure := [KElement; KClass] |} ], Return 0%nat)
    ∧ invoke c 0%nat [ {| css := "a.x"; structure := [KElement; KClass] |} ]
      = Some ([ {| css := "a.x"; structure := [KElement; KClass] |} ],
              Throw (Error CSSSelector.msgOrder))
    ∧ [ {| css := "a.x"; structure := [KElement; KClass] |} ] !! 0%nat
      = Some {| css := EmptyString +:+ renderings pre;
                structure := [] ++ pre.*1 |}.
Proof.
  apply (chain_raises_at
           [(KElement, "a"); (KClass, "x"); (KId, "late"); (KClass, "y")]
           [ {| css := EmptyString; structure := [] |} ]
           [ {| css := "a.x"; structure := [KElement; KClass] |} ] 0%nat
           {| css := EmptyString; structure := [] |}
           (Error CSSSelector.msgOrder)).
  - reflexivity.
  - reflexivity.
Defined.

(** ** The ends of the order *)

(** X5.  [element] goes through only as the first part: on a builder that
    has recorded any part, [element(...)] raises.  [pseudoElement] closes
    the selector: on a builder whose last recorded part is a pseudo-element,
    every part method raises.  In both cases the store is unchanged. *)
Theorem element_first_pseudoElement_last (h : heap) (this : loc) (b : Selector)
    (k : Kind) :
  h !! this = Some b →
  last (structure b) = Some k →
  (∀ value, ∃ e, CSSSelector.element value this h = Some (h, Throw e))
  ∧ (k = KPseudoElement → ∀ c, ∃ e, invoke c this h = Some (h, Throw e)).
Proof.
  intros Hb Hlast.
  assert (k ∈ structure b) as Hk.
  { apply last_Some in Hlast as [s' ->]. apply elem_of_app. right. left. }
  split.
  - intros value.
    change (CSSSelector.element value this h)
      with (invoke (KElement, value) this h).
    rewrite (invoke_spec _ h this b Hb). unfold verdict.
    case_decide as Hn; [eauto|].
    rewrite Hlast. case_decide as Hge; [eauto|].
    exfalso. apply Hn. split; [left|].
    destruct k; simpl in Hge; (done || lia).
  - intros -> c. rewrite (invoke_spec c h this b Hb). unfold verdict.
    case_decide as Hn; [eauto|].
    rewrite Hlast. case_decide as Hge; [eauto|].
    exfalso. apply Hn.
    assert (c.1 = KPseudoElement) as ->
      by (destruct c as [[] v]; simpl in *; (done || lia)).
    split; [repeat constructor | done].
Qed.

Lemma element_first_pseudoElement_last_witness :
  ∃ e, invoke (KClass, "x") 0%nat
         [ {| css := "p::after"; structure := [KElement; KPseudoElement] |} ]
       = Some ([ {| css := "p::after";
                    structure := [KElement; KPseudoElement] |} ], Throw e).
Proof.
  pose proof (element_first_pseudoElement_last
                [ {| css := "p::after"; structure := [KElement; KPseudoElement] |} ]
                0%nat {| css := "p::after";
                         structure := [KElement; KPseudoElement] |}
                KPseudoElement eq_refl eq_refl) as [_ Hlast].
  apply (Hlast eq_refl).
Defined.

(** ** Combination and validation *)

Lemma invoke_None (c : call) (h : heap) (this : loc) :
  h !! this = None → invoke c this h = None.
Proof.
  intros Hnone. destruct (invoke c this h) eqn:Hi; [| done].
  destruct (proj2 (invoke_total c h this)) as [b Hb]; [eauto | congruence].
Qed.

(** X6.  [combine] is invisible to validation: after a [combine] on any
    receiver, a part method on any instance raises the exception it would
    have raised before the call, or goes through as it would have.  So
    [element('a').combine(x, '+', y).element('b')] still raises the
    uniqueness error. *)
Theorem combine_keeps_validation (h h1 : heap) (this left right : loc)
    (combinator : string) (r : outcome loc) (c : call) (l : loc) :
  CSSSelector.combine left combinator right this h = Some (h1, r) →
  (∀ e, invoke c l h1 = Some (h1, Throw e) ↔ invoke c l h = Some (h, Throw e))
  ∧ ((∃ h2, invoke c l h1 = Some (h2, Return l))
     ↔ (∃ h2, invoke c l h = Some (h2, Return l))).
Proof.
  intros Hc.
  destruct (combine_cases _ _ _ _ _ _ _ Hc)
    as (bt & bl & br & Ht & _ & _ & -> & _).
  destruct (h !! l) as [b|] eqn:Hb.
  - assert (∃ b', <[this := {| css := css bt +:+ (css bl +:+ " " +:+ combinator
                                                     +:+ " " +:+ css br);
                              structure := structure bt |}]> h !! l = Some b'
                  ∧ structure b' = structure b) as (b' & Hb' & Hs).
    { destruct (decide (this = l)) as [-> | Hne].
      - eexists. split; [by eapply lookup_updated|]. simpl. congruence.
      - exists b. split; [by rewrite list_lookup_insert_ne | done]. }
    rewrite (invoke_spec c _ l b' Hb'), (invoke_spec c h l b Hb), Hs.
    destruct (verdict c.1 (structure b)) as [e0|].
    + split.
      * intros e. split; intros He; inversion He; by subst.
      * split; intros [h2 He]; discriminate.
    + split.
      * intros e. split; intros He; discriminate.
      * split; intros _; eauto.
  - assert (<[this := {| css := css bt +:+ (css bl +:+ " " +:+ combinator
                                              +:+ " " +:+ css br);
                         structure := structure bt |}]> h !! l = None) as Hb'
      by (by apply list_lookup_insert_None).
    rewrite (invoke_None c _ l Hb'), (invoke_None c h l Hb).
    split; [intros e|]; split; (intros [? ?] || intros ?); discriminate.
Qed.

Lemma combine_keeps_validation_witness :
  CSSSelector.element "b" 0%nat
    [ {| css := "aa + a"; structure := [KElement] |} ]
  = Some ([ {| css := "aa + a"; structure := [KElement] |} ],
          Throw (Error CSSSelector.msgUniqs)).
Proof.
  pose proof (combine_keeps_validation
                [ {| css := "a"; structure := [KElement] |} ]
                [ {| css := "aa + a"; structure := [KElement] |} ]
                0%nat 0%nat 0%nat "+" (Return 0%nat) (KElement, "b") 0%nat
                eq_refl) as [Hthrow _].
  apply (Hthrow (Error CSSSelector.msgUniqs)). reflexivity.
Defined.

(** ** The facade *)

Lemma facade_part (c : call) (h : heap) :
  (CSSSelector.constructor ≫= invoke c) h =
    Some (h ++ [ {| css := rendering c; structure := [c.1] |} ],
          Return (length h)).
Proof.
  bind_with (constructor_spec h).
  rewrite (invoke_spec c _ (length h) {| css := EmptyString; structure := [] |}
             (list_lookup_middle _ _ _ _ eq_refl)).
  cbn [structure css].
  assert (verdict c.1 [] = None) as Hv.
  { unfold verdict. case_decide as Hn; [| done].
    destruct Hn as [_ Hn]. by apply elem_of_nil in Hn. }
  by rewrite Hv, update_last.
Qed.

(** X7.  Each part entry point of the facade, from any store, returns
    without raising a reference to a new instance that no existing
    reference denotes; the new instance holds the rendering of the part
    and its kind, and every instance that existed is as it was.  Two
    selectors started from the facade therefore never share state. *)
Theorem facade_parts_fresh (h : heap) (value : string) :
  cssSelectorBuilder.element value h =
    Some (h ++ [ {| css := value; structure := [KElement] |} ], Return (length h))
  ∧ cssSelectorBuilder.id value h =
    Some (h ++ [ {| css := "#" +:+ value; structure := [KId] |} ],
          Return (length h))
  ∧ cssSelectorBuilder.class value h =
    Some (h ++ [ {| css := "." +:+ value; structure := [KClass] |} ],
          Return (length h))
  ∧ cssSelectorBuilder.attr value h =
    Some (h ++ [ {| css := "[" +:+ value +:+ "]"; structure := [KAttr] |} ],
          Return (length h))
  ∧ cssSelectorBuilder.pseudoClass value h =
    Some (h ++ [ {| css := ":" +:+ value; structure := [KPseudoClass] |} ],
          Return (length h))
  ∧ cssSelectorBuilder.pseudoElement value h =
    Some (h ++ [ {| css := "::" +:+ value; structure := [KPseudoElement] |} ],
          Return (length h))
  ∧ (∀ l b, h !! l = Some b → l ≠ length h ∧ ∀ b', (h ++ [b']) !! l = Some b).
Proof.
  split; [exact (facade_part (KElement, value) h)|].
  split; [exact (facade_part (KId, value) h)|].
  split; [exact (facade_part (KClass, value) h)|].
  split; [exact (facade_part (KAttr, value) h)|].
  split; [exact (facade_part (KPseudoClass, value) h)|].
  split; [exact (facade_part (KPseudoElement, value) h)|].
  intros l b Hb. pose proof (lookup_lt_Some _ _ _ Hb) as Hlt.
  split; [lia|]. intros b'. by rewrite lookup_app_l.
Qed.

Lemma facade_combine_spec (h : heap) (left right : loc) (bl br : Selector)
    (combinator : string) :
  h !! left = Some bl →
  h !! right = Some br →
  cssSelectorBuilder.combine left combinator right h =
    Some (h ++ [ {| css := css bl +:+ " " +:+ combinator +:+ " " +:+ css br;
                    structure := [] |} ],
          Return (length h)).
Proof.
  intros Hl Hr. unfold cssSelectorBuilder.combine.
  bind_with (constructor_spec h).
  rewrite (combine_spec _ (length h) left right
             {| css := EmptyString; structure := [] |} bl br combinator).
  - by rewrite update_last.
  - by apply list_lookup_middle.
  - rewrite lookup_app_l; [done | by eapply lookup_lt_Some].
  - rewrite lookup_app_l; [done | by eapply lookup_lt_Some].
Qed.

(** X8.  Combinations nest: combining [a] with the combination of [b] and
    [c] through the facade gives the text of [a], the first combinator, the
    text of [b], the second combinator and the text of [c], with single
    spaces around each combinator; [a], [b] and [c] are left as they are,
    and the store gains two instances with empty [structure]. *)
Theorem nested_combine_text (h : heap) (a b c : loc) (ba bb bc : Selector)
    (c1 c2 : string) :
  h !! a = Some ba →
  h !! b = Some bb →
  h !! c = Some bc →
  (inner ← cssSelectorBuilder.combine b c2 c;
   outer ← cssSelectorBuilder.combine a c1 inner;
   CSSSelector.stringify outer) h =
    Some (h ++ [ {| css := css bb +:+ " " +:+ c2 +:+ " " +:+ css bc;
                    structure := [] |};
                 {| css := css ba +:+ " " +:+ c1 +:+ " "
                             +:+ (css bb +:+ " " +:+ c2 +:+ " " +:+ css bc);
                    structure := [] |} ],
          Return (css ba +:+ " " +:+ c1 +:+ " "
                    +:+ (css bb +:+ " " +:+ c2 +:+ " " +:+ css bc))).
Proof.
  intros Ha Hb Hc.
  set (inner := {| css := css bb +:+ " " +:+ c2 +:+ " " +:+ css bc;
                   structure := [] |}).
  bind_with (facade_combine_spec h b c bb bc c2 Hb Hc).
  fold inner.
  assert ((h ++ [inner]) !! a = Some ba) as Ha'.
  { rewrite lookup_app_l; [done | by eapply lookup_lt_Some]. }
  assert ((h ++ [inner]) !! length h = Some inner) as Hi'
    by (by apply list_lookup_middle).
  bind_with (facade_combine_spec (h ++ [inner]) a (length h) ba inner c1 Ha' Hi').
  unfold CSSSelector.stringify.
  rewrite (read_Some css _ _ _ (list_lookup_middle _ _ _ _ eq_refl)).
  by rewrite <- app_assoc.
Qed.

Lemma nested_combine_text_witness :
  (inner ← cssSelectorBuilder.combine 1%nat "~" 2%nat;
   outer ← cssSelectorBuilder.combine 0%nat "+" inner;
   CSSSelector.stringify outer)
    [ {| css := "div#main"; structure := [KElement; KId] |};
      {| css := "table"; structure := [KElement] |};
      {| css := "tr"; structure := [KElement] |} ]
  = Some ([ {| css := "div#main"; structure := [KElement; KId] |};
            {| css := "table"; structure := [KElement] |};
            {| css := "tr"; structure := [KElement] |};
            {| css := "table ~ tr"; structure := [] |};
            {| css := "div#main + table ~ tr"; structure := [] |} ],
          Return "div#main + table ~ tr").
Proof.
  apply (nested_combine_text
           [ {| css := "div#main"; structure := [KElement; KId] |};
             {| css := "table"; structure := [KElement] |};
             {| css := "tr"; structure := [KElement] |} ]
           0%nat 1%nat 2%nat
           {| css := "div#main"; structure := [KElement; KId] |}
           {| css := "table"; structure := [KElement] |}
           {| css := "tr"; structure := [KElement] |} "+" "~");
    reflexivity.
Defined.

(** * Further properties of [fromJSON] *)

Section AssignFacts.

Context {number function : Type}.
Variable call_setter :
  function → object number function → value number function
  → outcome (object number function).

Lemma assign_all_app (l1 l2 : list (string * json number)) :
  ∀ target : object number function,
    assign_all call_setter target (l1 ++ l2) =
      match assign_all call_setter target l1 with
      | Return target' => assign_all call_setter target' l2
      | Throw e => Throw e
      end.
Proof.
  induction l1 as [|[k j] l1 IH]; intros target; simpl; [done|].
  destruct (set_property call_setter target k (VData j)); [apply IH | done].
Qed.

(** Without a prototype nothing can intercept an assignment. *)
Lemma set_property_fresh_null (own : list (string * property number function))
    (key : string) (v : value number function) :
  key ∉ own.*1 →
  set_property call_setter (Obj own None) key v =
    Return (Obj (own ++ [(key, DataProperty v true)]) None).
Proof.
  intros Hfresh.
  pose proof (proj2 (assoc_None_iff key own) Hfresh) as Hown.
  unfold set_property, own_property. simpl. rewrite Hown. simpl.
  by rewrite define_fresh.
Qed.

Lemma assign_all_fresh_null (members : list (string * json number)) :
  ∀ done_ : list (string * json number),
    NoDup (done_ ++ members).*1 →
    assign_all call_setter (Obj (data_fields done_) None) members =
      Return (Obj (data_fields (function := function) (done_ ++ members)) None).
Proof.
  induction members as [|[k j] members IH]; intros done_ Hnodup; simpl.
  - by rewrite app_nil_r.
  - rewrite set_property_fresh_null.
    + replace (data_fields done_ ++ [(k, DataProperty (VData j) true)])
        with (data_fields (function := function) (done_ ++ [(k, j)]))
        by (unfold data_fields; by rewrite fmap_app).
      rewrite IH; by rewrite <- app_assoc.
    + rewrite data_fields_keys. rewrite fmap_app in Hnodup.
      apply NoDup_app in Hnodup as (_ & Hdisj & _).
      intros Hin. apply (Hdisj k Hin). simpl. left.
Qed.

Lemma indexed_keys (items : list (json number)) :
  (imap (λ i e, (index_key i, e)) items).*1 = index_key <$> seq 0 (length items).
Proof.
  rewrite fmap_imap. rewrite <- imap_seq_0. by apply imap_ext.
Qed.

Lemma data_fields_indexed (items : list (json number)) :
  data_fields (imap (λ i e, (index_key i, e)) items)
  = indexed_fields (function := function) items.
Proof. unfold data_fields, indexed_fields. rewrite fmap_imap. by apply imap_ext. Qed.

End AssignFacts.

(** X9.  When the text is not an object: for an array, [fromJSON] returns
    an object with one own field per element, named by the element's index
    in decimal and in index order, and no field for the length, provided
    no member of [proto] named by one of these indices intercepts the
    assignment; for [null], a number or a boolean it returns an object
    without own fields.  The prototype is [proto] in each case, and nothing
    raises. *)
Theorem fromJSON_array_or_scalar {number function : Type}
    (call_setter : function → object number function → value number function
                   → outcome (object number function))
    (JSON_parse : string → outcome (json number))
    (proto : object number function) (text : string) (parsed : json number) :
  JSON_parse text = Return parsed →
  (∀ elements,
     parsed = JArray elements →
     (∀ i : nat, (i < length elements)%nat → assignable proto (index_key i)) →
     fromJSON call_setter JSON_parse (Some proto) text =
       Return (Obj (indexed_fields elements) (Some proto))
     ∧ length (indexed_fields (function := function) elements) = length elements
     ∧ ∀ i e, elements !! i = Some e →
         indexed_fields (function := function) elements !! i
         = Some (index_key i, DataProperty (VData e) true))
  ∧ (parsed = JNull ∨ (∃ b, parsed = JBool b) ∨ (∃ n, parsed = JNumber n) →
       fromJSON call_setter JSON_parse (Some proto) text =
         Return (Obj [] (Some proto))).
Proof.
  intros Hparse. split.
  - intros elements -> Hassign. split; [| split].
    + unfold fromJSON, Object_assign, Object_create. rewrite Hparse. simpl.
      rewrite (assign_all_fresh call_setter _ [] proto).
      * simpl. by rewrite data_fields_indexed.
      * simpl. rewrite indexed_keys.
        apply (NoDup_fmap_2 _), NoDup_seq.
      * intros key Hk. rewrite indexed_keys in Hk.
        apply list_elem_of_fmap in Hk as (i & -> & Hi).
        apply Hassign. apply elem_of_seq in Hi. lia.
    + apply length_imap.
    + intros i e He. unfold indexed_fields.
      by rewrite list_lookup_imap, He.
  - intros [-> | [[b ->] | [n ->]]];
      unfold fromJSON, Object_assign, Object_create; by rewrite Hparse.
Qed.

Lemma fromJSON_array_or_scalar_witness :
  fromJSON Runtime.call_setter Runtime.JSON_parse (Some Runtime.Circle_prototype)
    "[7,null,true]"
  = Return (Obj [("0", DataProperty (VData (JNumber 7)) true);
                 ("1", DataProperty (VData JNull) true);
                 ("2", DataProperty (VData (JBool true)) true)]
                (Some Runtime.Circle_prototype)).
Proof.
  pose proof (fromJSON_array_or_scalar Runtime.call_setter Runtime.JSON_parse
                Runtime.Circle_prototype "[7,null,true]"
                (JArray [JNumber 7; JNull; JBool true]) eq_refl)
    as [Harr _].
  apply (Harr [JNumber 7; JNull; JBool true] eq_refl).
  intros i Hi. simpl in Hi.
  destruct i as [|[|[|i]]]; [vm_compute; exact I .. | lia].
Defined.

(** X10.  With a [null] prototype nothing is inherited, so nothing can
    intercept: whatever the field names of the parsed object are,
    [fromJSON(null, text)] calls no setter, raises nothing, and returns an
    object whose own fields are exactly the parsed ones, in their order,
    and on which every other name resolves to nothing. *)
Theorem fromJSON_null_prototype {number function : Type}
    (call_setter : function → object number function → value number function
                   → outcome (object number function))
    (JSON_parse : string → outcome (json number))
    (text : string) (members : list (string * json number)) :
  JSON_parse text = Return (JObject members) →
  NoDup members.*1 →
  fromJSON call_setter JSON_parse None text =
    Return (Obj (data_fields members) None)
  ∧ ∀ key, key ∉ members.*1 →
      get_property (Obj (data_fields (function := function) members) None) key
      = None.
Proof.
  intros Hparse Hnodup. split.
  - unfold fromJSON, Object_assign, Object_create. rewrite Hparse. simpl.
    by apply (assign_all_fresh_null call_setter members []).
  - intros key Hkey. simpl.
    replace (assoc key (data_fields members)) with (@None (property number function));
      [done|].
    symmetry. apply assoc_None_iff. by rewrite data_fields_keys.
Qed.

Lemma fromJSON_null_prototype_witness :
  fromJSON Runtime.call_setter Runtime.JSON_parse None
    (getJSON Runtime.JSON_stringify
       (JObject [("radius", JNumber 10); ("__proto__", JNull)]))
  = Return (Obj [("radius", DataProperty (VData (JNumber 10)) true);
                 ("__proto__", DataProperty (VData JNull) true)]
                None).
Proof.
  pose proof (fromJSON_null_prototype Runtime.call_setter Runtime.JSON_parse
                (getJSON Runtime.JSON_stringify
                   (JObject [("radius", JNumber 10); ("__proto__", JNull)]))
                [("radius", JNumber 10); ("__proto__", JNull)]) as H.
  apply H.
  - vm_compute. reflexivity.
  - apply NoDup_cons. split.
    + intros Hin. apply list_elem_of_singleton in Hin. discriminate.
    + apply NoDup_singleton.
Defined.

(** X11.  An inherited member that refuses assignment makes [fromJSON]
    raise: when the fields before it are copied without interception and
    a field's name resolves on [proto] to a read-only data property or to
    an accessor without a setter, [fromJSON] raises a [TypeError] and
    returns no object; the fields after it play no part. *)
Theorem fromJSON_refused {number function : Type}
    (call_setter : function → object number function → value number function
                   → outcome (object number function))
    (JSON_parse : string → outcome (json number))
    (proto : object number function) (text : string)
    (before after : list (string * json number)) (key : string) (j : json number) :
  JSON_parse text = Return (JObject (before ++ (key, j) :: after)) →
  NoDup (before.*1 ++ [key]) →
  (∀ k, k ∈ before.*1 → assignable proto k) →
  refuses_assignment proto key →
  fromJSON call_setter JSON_parse (Some proto) text = Throw TypeError.
Proof.
  intros Hparse Hnodup Hassign Hrefuse.
  apply NoDup_app in Hnodup as (Hbefore & Hdisj & _).
  unfold fromJSON, Object_assign, Object_create. rewrite Hparse. simpl.
  rewrite assign_all_app.
  pose proof (assign_all_fresh call_setter before [] proto Hbefore Hassign)
    as Hcopied.
  simpl in Hcopied. rewrite Hcopied. simpl.
  assert (assoc key (data_fields (function := function) before) = None) as Hown.
  { apply assoc_None_iff. rewrite data_fields_keys.
    intros Hin. apply (Hdisj key Hin). left. }
  unfold set_property, own_property, refuses_assignment in *. simpl.
  rewrite Hown.
  by destruct (get_property proto key) as [[v [|]|g [f|]]|].
Qed.

Lemma fromJSON_refused_witness :
  fromJSON Runtime.call_setter Runtime.JSON_parse
    (Some Fixtures.ReadOnly_prototype)
    (getJSON Runtime.JSON_stringify
       (JObject [("color", JString "red"); ("radius", JNumber 10);
                 ("unit", JString "cm")]))
  = Throw TypeError.
Proof.
  apply (fromJSON_refused Runtime.call_setter Runtime.JSON_parse
           Fixtures.ReadOnly_prototype _
           [("color", JString "red")] [("unit", JString "cm")]
           "radius" (JNumber 10)).
  - vm_compute. reflexivity.
  - simpl. apply NoDup_cons. split.
    + intros Hin. apply list_elem_of_singleton in Hin. discriminate.
    + apply NoDup_singleton.
  - intros k Hk. apply list_elem_of_singleton in Hk as ->. vm_compute. exact I.
  - vm_compute. exact I.
Defined.
